(** * WriteRightAI: the paragraph chunker and the two-stage job pipeline

    A shallow embedding of [agents.py] and [main.py].

    - Python [str] values are lists of code points ([N]); [isspace] is
      Python's [str.isspace].
    - Python [int] values are [Z]; [len] is [Z.of_nat (length _)].
    - [file_storage] (a dict of dicts with a fixed key set) is a [gmap]
      from file ids to a record.
    - Exceptions are values returned next to the state they leave.
    - The external collaborators (document loaders, the text service,
      the file system and the Word writer) are the fields of the class
      [Collaborators]. *)

From Stdlib Require Import ZArith Ascii String List Lia Bool.
From stdpp Require Import gmap strings list.
Import ListNotations.

Local Open Scope Z_scope.

(** ** Python strings *)

Module Str.

(** A character is a code point. *)
Definition char := N.
Definition str := list char.

(** A character and a string literal. *)
Definition chr (a : ascii) : char := N_of_ascii a.
Definition lit (s : string) : str := map chr (list_ascii_of_string s).

Definition nl : char := 10%N.

(** [len(s)] *)
Definition len (s : str) : Z := Z.of_nat (length s).

(** [c.isspace()]: the ASCII controls 9-13 and 28-31, the space, NEL,
    the no-break space, and the Unicode space separators and line and
    paragraph separators. *)
Definition isspace (c : char) : bool :=
  ((9 <=? c) && (c <=? 13) || (28 <=? c) && (c <=? 32)
   || (c =? 133) || (c =? 160) || (c =? 5760)
   || (8192 <=? c) && (c <=? 8202)
   || (c =? 8232) || (c =? 8233) || (c =? 8239) || (c =? 8287)
   || (c =? 12288))%N.

(** [bool(s)]: a string is truthy when it is not empty. *)
Definition truthy (s : str) : bool :=
  match s with [] => false | _ :: _ => true end.

Fixpoint lstrip (s : str) : str :=
  match s with
  | [] => []
  | c :: r => if isspace c then lstrip r else s
  end.

Definition rstrip (s : str) : str := rev (lstrip (rev s)).

(** [s.strip()] *)
Definition strip (s : str) : str := rstrip (lstrip s).

(** [s.split("\n\n")]: cut at every occurrence of two consecutive
    newlines, scanning from the left; [acc] holds the current piece
    reversed.  The result is never empty. *)
Fixpoint split_aux (acc s : str) : list str :=
  match s with
  | [] => [rev acc]
  | c :: r =>
      match r with
      | d :: r' =>
          if N.eqb c nl && N.eqb d nl
          then rev acc :: split_aux [] r'
          else split_aux (c :: acc) r
      | [] => [rev (c :: acc)]
      end
  end.

Definition split (s : str) : list str := split_aux [] s.

(** The paragraph delimiter ["\n\n"]. *)
Definition sep : str := [nl; nl].

(** ["\n\n".join(l)] *)
Fixpoint join (l : list str) : str :=
  match l with
  | [] => []
  | [x] => x
  | x :: rest => x ++ sep ++ join rest
  end.

(** [s.startswith(p)] and [s.endswith(suffix)] *)
Fixpoint startswith (s p : str) : bool :=
  match p, s with
  | [], _ => true
  | _ :: _, [] => false
  | a :: p', b :: s' => N.eqb a b && startswith s' p'
  end.

Definition endswith (s suffix : str) : bool :=
  startswith (rev s) (rev suffix).

End Str.

Import Str.

(** ** The chunker ([paragraph_chunk_split], agents.py) *)

Module Chunker.

(** Loop state: the list [chunks] and the buffer [current_chunk]. *)
Definition loop_state : Type := list str * str.

(** One iteration of [for para in paragraphs]. *)
Definition step (chunk_size : Z) (st : loop_state) (para : str) : loop_state :=
  let '(chunks, current_chunk) := st in
  let para_with_newline := strip para ++ sep in
  if len current_chunk + len para_with_newline >? chunk_size then
    ((if truthy current_chunk then chunks ++ [strip current_chunk] else chunks),
     para_with_newline)
  else
    (chunks, current_chunk ++ para_with_newline).

Definition paragraph_chunk_split (text : str) (chunk_size : Z) : list str :=
  let paragraphs := split text in
  let '(chunks, current_chunk) :=
    fold_left (step chunk_size) paragraphs ([], []) in
  if truthy current_chunk then chunks ++ [strip current_chunk] else chunks.

End Chunker.

Import Chunker.

(** ** The job pipeline ([agents.py]) *)

Module Pipeline.

(** Exceptions caught by [except Exception]; [exc_str] is [str(e)]. *)
Inductive Exception : Type :=
  | ValueError (msg : str)
  | ExternalError (msg : str).

Definition exc_str (e : Exception) : str :=
  match e with ValueError m => m | ExternalError m => m end.

(** The state shared by the nodes of a workflow ([ComplianceState]). *)
Record ComplianceState : Type := mkState {
  st_file_path : str;
  st_original_text : str;
  st_chunks : list str;
  st_compliance_reports : list str;
  st_corrected_chunks : list str;
  st_final_corrected_doc : str;
  st_output_path : str
}.

(** [ComplianceState(file_path=file_path)] *)
Definition ComplianceState_init (file_path : str) : ComplianceState :=
  mkState file_path [] [] [] [] [] [].

Definition set_original_text (v : str) (s : ComplianceState) : ComplianceState :=
  mkState (st_file_path s) v (st_chunks s) (st_compliance_reports s)
          (st_corrected_chunks s) (st_final_corrected_doc s) (st_output_path s).

Definition set_chunks (v : list str) (s : ComplianceState) : ComplianceState :=
  mkState (st_file_path s) (st_original_text s) v (st_compliance_reports s)
          (st_corrected_chunks s) (st_final_corrected_doc s) (st_output_path s).

Definition set_compliance_reports (v : list str) (s : ComplianceState) : ComplianceState :=
  mkState (st_file_path s) (st_original_text s) (st_chunks s) v
          (st_corrected_chunks s) (st_final_corrected_doc s) (st_output_path s).

Definition set_corrected_chunks (v : list str) (s : ComplianceState) : ComplianceState :=
  mkState (st_file_path s) (st_original_text s) (st_chunks s) (st_compliance_reports s)
          v (st_final_corrected_doc s) (st_output_path s).

Definition set_final_corrected_doc (v : str) (s : ComplianceState) : ComplianceState :=
  mkState (st_file_path s) (st_original_text s) (st_chunks s) (st_compliance_reports s)
          (st_corrected_chunks s) v (st_output_path s).

Definition set_output_path (v : str) (s : ComplianceState) : ComplianceState :=
  mkState (st_file_path s) (st_original_text s) (st_chunks s) (st_compliance_reports s)
          (st_corrected_chunks s) (st_final_corrected_doc s) v.

(** What the nodes do to the outside: the prompts sent to the text
    service, oldest first, and the documents written, each with its path
    and paragraphs. *)
Record World : Type := mkWorld {
  llm_calls : list str;
  documents : list (str * list str)
}.

(** A node runs on the mutable state object and the world; it returns
    or raises, and leaves both as they were at that point. *)
Record Env : Type := mkEnv { env_state : ComplianceState; env_world : World }.

Definition M (A : Type) : Type := Env -> (Exception + A) * Env.

Definition ret {A} (a : A) : M A := fun env => (inr a, env).
Definition raise {A} (e : Exception) : M A := fun env => (inl e, env).
Definition bind {A B} (m : M A) (k : A -> M B) : M B :=
  fun env =>
    match m env with
    | (inl e, env') => (inl e, env')
    | (inr a, env') => k a env'
    end.

Definition get_state : M ComplianceState := fun env => (inr (env_state env), env).
Definition modify_state (f : ComplianceState -> ComplianceState) : M unit :=
  fun env => (inr tt, mkEnv (f (env_state env)) (env_world env)).

Notation "x <<- m ;; k" := (bind m (fun x => k))
  (at level 100, m at next level, right associativity).
Notation "m ;;; k" := (bind m (fun _ => k))
  (at level 100, right associativity).

(** A string value is either returned or an exception is raised. *)
Definition lift {A} (r : Exception + A) : M A :=
  match r with inl e => raise e | inr a => ret a end.

(** The status values written by the code. *)
Inductive Status : Type :=
  | uploaded
  | processing_compliance
  | compliance_complete
  | processing_correction
  | correction_complete
  | error.

Definition status_str (s : Status) : str :=
  match s with
  | uploaded => lit "uploaded"
  | processing_compliance => lit "processing_compliance"
  | compliance_complete => lit "compliance_complete"
  | processing_correction => lit "processing_correction"
  | correction_complete => lit "correction_complete"
  | error => lit "error"
  end.

Definition status_eqb (a b : Status) : bool :=
  match a, b with
  | uploaded, uploaded | processing_compliance, processing_compliance
  | compliance_complete, compliance_complete
  | processing_correction, processing_correction
  | correction_complete, correction_complete | error, error => true
  | _, _ => false
  end.

(** An entry of [file_storage]. *)
Record Job : Type := mkJob {
  job_file_path : str;
  job_original_filename : str;
  job_status : Status;
  job_compliance_reports : list str;
  job_chunks : list str;
  job_original_text : str;
  job_corrected_chunks : list str;
  job_final_corrected_doc : str;
  job_output_path : str;
  job_state : option ComplianceState;
  job_error : option str
}.

Definition set_status (v : Status) (j : Job) : Job :=
  mkJob (job_file_path j) (job_original_filename j) v (job_compliance_reports j)
        (job_chunks j) (job_original_text j) (job_corrected_chunks j)
        (job_final_corrected_doc j) (job_output_path j) (job_state j) (job_error j).

Definition set_error (v : str) (j : Job) : Job :=
  mkJob (job_file_path j) (job_original_filename j) (job_status j)
        (job_compliance_reports j) (job_chunks j) (job_original_text j)
        (job_corrected_chunks j) (job_final_corrected_doc j) (job_output_path j)
        (job_state j) (Some v).

(** The results stored by [process_compliance_check]. *)
Definition store_check_results (s : ComplianceState) (j : Job) : Job :=
  mkJob (job_file_path j) (job_original_filename j) compliance_complete
        (st_compliance_reports s) (st_chunks s) (st_original_text s)
        (job_corrected_chunks j) (job_final_corrected_doc j) (job_output_path j)
        (Some s) (job_error j).

(** The results stored by [process_document_correction]. *)
Definition store_correction_results (s : ComplianceState) (j : Job) : Job :=
  mkJob (job_file_path j) (job_original_filename j) correction_complete
        (job_compliance_reports j) (job_chunks j) (job_original_text j)
        (st_corrected_chunks s) (st_final_corrected_doc s) (st_output_path s)
        (Some s) (job_error j).

(** The record created by [upload_file]. *)
Definition uploaded_job (file_path filename : str) : Job :=
  mkJob file_path filename uploaded [] [] [] [] [] [] None None.

(** The prompts of the two text-service calls. *)
Definition check_prompt (chunk : str) : str :=
  lit "Check the following text for compliance with English grammar, style, clarity, and professional writing rules. Return a structured JSON report:

" ++ chunk.

Definition correct_prompt (chunk : str) : str :=
  lit "Correct the following text to fully comply with English grammar, style, clarity, and professional writing rules.

INSTRUCTIONS:
1. Return ONLY the corrected text.
2. Do NOT add any explanations, summaries, or extra comments.
3. Keep the original paragraph structure.
4. Maintain the original meaning.

ORIGINAL TEXT:
" ++ chunk ++ lit "

CORRECTED TEXT:".

(** [os.path.basename(p)]: what follows the last slash. *)
Fixpoint take_until (stop : char) (s : str) : str :=
  match s with
  | [] => []
  | c :: r => if N.eqb c stop then [] else c :: take_until stop r
  end.

Definition basename (p : str) : str := rev (take_until (chr "/") (rev p)).

(** [os.path.basename(file_path).split('.')[0]] *)
Definition file_id_of (file_path : str) : str :=
  take_until (chr ".") (basename file_path).

(** [os.path.join("output", f"corrected_{file_id}.docx")] *)
Definition output_path_of (file_path : str) : str :=
  lit "output/corrected_" ++ file_id_of file_path ++ lit ".docx".

(** The paragraphs handed to [doc.add_paragraph]. *)
Definition docx_paragraphs (final_corrected_doc : str) : list str :=
  List.filter truthy (map strip (split final_corrected_doc)).

(** The external collaborators of the workflow engine. *)
Class Collaborators : Type := {
  (** The document loaders: the page contents of a file, or an exception. *)
  PDFPlumberLoader_load : str -> Exception + list str;
  Docx2txtLoader_load : str -> Exception + list str;
  (** The text service: the content of the response to a prompt, or an
      exception.  The first argument is the number of calls made before
      this one, so the same prompt may be answered differently. *)
  llm_ainvoke : nat -> str -> Exception + str;
  (** [os.makedirs] and [doc.save]: [None] on success. *)
  makedirs : str -> option Exception;
  Document_save : str -> list str -> option Exception;
  (** What the graph runtime raises when it is run on [None]. *)
  empty_input : Exception
}.

Section Nodes.

Context `{C : Collaborators}.

Definition llm_call (prompt : str) : M str :=
  fun env =>
    let w := env_world env in
    let env' := mkEnv (env_state env)
                      (mkWorld (llm_calls w ++ [prompt]) (documents w)) in
    (llm_ainvoke (length (llm_calls w)) prompt, env').

Definition save_call (path : str) (paragraphs : list str) : M unit :=
  fun env =>
    match Document_save path paragraphs with
    | Some e => (inl e, env)
    | None =>
        let w := env_world env in
        (inr tt, mkEnv (env_state env)
                       (mkWorld (llm_calls w) (documents w ++ [(path, paragraphs)])))
    end.

Definition load_document_node : M unit :=
  state <<- get_state ;;
  let file_path := st_file_path state in
  text <<- (if endswith file_path (lit ".pdf") then
              docs <<- lift (PDFPlumberLoader_load file_path) ;; ret (join docs)
            else if endswith file_path (lit ".docx") then
              docs <<- lift (Docx2txtLoader_load file_path) ;; ret (join docs)
            else raise (ValueError (lit "Only PDF and DOCX supported."))) ;;
  modify_state (set_original_text text).

Definition chunk_text_node : M unit :=
  state <<- get_state ;;
  let text := st_original_text state in
  let chunks := paragraph_chunk_split text 2000 in
  modify_state (set_chunks chunks).

(** The loop of [compliance_check_node]; [reports] is the local list. *)
Fixpoint check_loop (chunks reports : list str) : M (list str) :=
  match chunks with
  | [] => ret reports
  | chunk :: rest =>
      response <<- llm_call (check_prompt chunk) ;;
      check_loop rest (reports ++ [response])
  end.

Definition compliance_check_node : M unit :=
  state <<- get_state ;;
  reports <<- check_loop (st_chunks state) [] ;;
  modify_state (set_compliance_reports reports).

(** The loop of [correct_document_node]. *)
Fixpoint correct_loop (chunks corrected_chunks : list str) : M (list str) :=
  match chunks with
  | [] => ret corrected_chunks
  | chunk :: rest =>
      response <<- llm_call (correct_prompt chunk) ;;
      correct_loop rest (corrected_chunks ++ [strip response])
  end.

Definition correct_document_node : M unit :=
  state <<- get_state ;;
  corrected_chunks <<- correct_loop (st_chunks state) [] ;;
  modify_state (set_corrected_chunks corrected_chunks) ;;;
  modify_state (set_final_corrected_doc (join corrected_chunks)).

Definition save_corrected_doc_node : M unit :=
  lift (match makedirs (lit "output") with Some e => inl e | None => inr tt end) ;;;
  state <<- get_state ;;
  let output_path := output_path_of (st_file_path state) in
  save_call output_path (docx_paragraphs (st_final_corrected_doc state)) ;;;
  modify_state (set_output_path output_path).

(** The compiled graphs run their nodes in the order of the edges. *)
Definition compliance_workflow : M unit :=
  load_document_node ;;; chunk_text_node ;;; compliance_check_node.

Definition correction_workflow : M unit :=
  correct_document_node ;;; save_corrected_doc_node.

(** [await graph.ainvoke(state)]: the final state, or the exception of
    the node that raised. *)
Definition ainvoke (graph : M unit) (state : option ComplianceState) (w : World)
  : (Exception + ComplianceState) * World :=
  match state with
  | None => (inl empty_input, w)
  | Some s =>
      match graph (mkEnv s w) with
      | (inl e, env') => (inl e, env_world env')
      | (inr _, env') => (inr (env_state env'), env_world env')
      end
  end.

(** The exception that escapes an executor: [file_storage[file_id]] on
    an id that is not stored raises [KeyError(file_id)], in the handler
    too.  It is kept as the exception object, with its argument. *)
Inductive Escaped : Type :=
  | KeyError (key : str).

(** The result of a background task: the exception that escaped it, if
    any, the job store and the world. *)
Definition TaskResult : Type := option Escaped * gmap str Job * World.

Definition process_compliance_check (file_id file_path : str)
    (file_storage : gmap str Job) (w : World) : TaskResult :=
  match file_storage !! file_id with
  | None => (Some (KeyError file_id), file_storage, w)
  | Some job =>
      let job := set_status processing_compliance job in
      match ainvoke compliance_workflow (Some (ComplianceState_init file_path)) w with
      | (inr state, w') =>
          (None, <[file_id := store_check_results state job]> file_storage, w')
      | (inl e, w') =>
          (None, <[file_id := set_error (exc_str e) (set_status error job)]> file_storage, w')
      end
  end.

Definition process_document_correction (file_id : str)
    (file_storage : gmap str Job) (w : World) : TaskResult :=
  match file_storage !! file_id with
  | None => (Some (KeyError file_id), file_storage, w)
  | Some job =>
      let job := set_status processing_correction job in
      match ainvoke correction_workflow (job_state job) w with
      | (inr state, w') =>
          (None, <[file_id := store_correction_results state job]> file_storage, w')
      | (inl e, w') =>
          (None, <[file_id := set_error (exc_str e) (set_status error job)]> file_storage, w')
      end
  end.

End Nodes.

End Pipeline.

Import Pipeline.

(** ** The trigger boundary and the status query ([main.py]) *)

Module Api.

Inductive HTTPException : Type :=
  | HTTPError (status_code : Z) (detail : str).

(** A call recorded by [background_tasks.add_task]. *)
Inductive Task : Type :=
  | ProcessComplianceCheck (file_id file_path : str)
  | ProcessDocumentCorrection (file_id : str).

Record ComplianceResponse : Type := mkComplianceResponse {
  cr_file_id : str;
  cr_compliance_reports : list str;
  cr_message : str
}.

Record CorrectionResponse : Type := mkCorrectionResponse {
  co_file_id : str;
  co_message : str
}.

Record StatusResponse : Type := mkStatusResponse {
  sr_file_id : str;
  sr_status : Status;
  sr_message : option str;
  sr_compliance_reports : list str
}.

(** The outcome of an endpoint: the response or the HTTP error, and the
    background tasks scheduled by the request. *)
Definition Outcome (R : Type) : Type := (HTTPException + R) * list Task.

Definition check_compliance (file_id : str) (file_storage : gmap str Job)
  : Outcome ComplianceResponse :=
  match file_storage !! file_id with
  | None => (inl (HTTPError 404 (lit "File not found")), [])
  | Some file_info =>
      if negb (status_eqb (job_status file_info) uploaded
               || status_eqb (job_status file_info) compliance_complete)
      then (inl (HTTPError 400 (lit "File is currently "
                                 ++ status_str (job_status file_info))), [])
      else (inr (mkComplianceResponse file_id []
                   (lit "Compliance checking started. Check status for progress.")),
            [ProcessComplianceCheck file_id (job_file_path file_info)])
  end.

Definition correct_document (file_id : str) (file_storage : gmap str Job)
  : Outcome CorrectionResponse :=
  match file_storage !! file_id with
  | None => (inl (HTTPError 404 (lit "File not found")), [])
  | Some file_info =>
      if negb (status_eqb (job_status file_info) compliance_complete)
      then (inl (HTTPError 400
                   (lit "File must be compliance checked first. Current status: "
                    ++ status_str (job_status file_info))), [])
      else (inr (mkCorrectionResponse file_id
                   (lit "Document correction started. Check status for progress.")),
            [ProcessDocumentCorrection file_id])
  end.

(** [if file_info["error"]:] holds for a recorded, non-empty message. *)
Definition error_truthy (e : option str) : option str :=
  match e with
  | Some m => if truthy m then Some m else None
  | None => None
  end.

Definition status_message (file_info : Job) : option str :=
  match error_truthy (job_error file_info) with
  | Some m => Some (lit "Error: " ++ m)
  | None =>
      match job_status file_info with
      | uploaded => Some (lit "File uploaded, ready for compliance checking")
      | processing_compliance => Some (lit "Compliance checking in progress...")
      | compliance_complete =>
          Some (lit "Compliance checking complete, ready for correction")
      | processing_correction => Some (lit "Document correction in progress...")
      | correction_complete =>
          Some (lit "Document correction complete, ready for download")
      | error => None
      end
  end.

Definition get_status (file_id : str) (file_storage : gmap str Job)
  : HTTPException + StatusResponse :=
  match file_storage !! file_id with
  | None => inl (HTTPError 404 (lit "File not found"))
  | Some file_info =>
      inr (mkStatusResponse file_id (job_status file_info)
             (status_message file_info) (job_compliance_reports file_info))
  end.

(** A request is accepted when it raises no HTTP error. *)
Definition accepted {R} (o : Outcome R) : bool :=
  match fst o with inl _ => false | inr _ => true end.

End Api.

Import Api.

(** ** Upload and download ([main.py]) *)

Module Files.

Record FileUploadResponse : Type := mkFileUploadResponse {
  fu_file_id : str;
  fu_message : str
}.

Record FileResponse : Type := mkFileResponse {
  fr_path : str;
  fr_filename : str;
  fr_media_type : str
}.

(** [os.path.join(a, b)] for two components. *)
Definition path_join (a b : str) : str :=
  if startswith b (lit "/") then b
  else if negb (truthy a) || endswith a (lit "/") then a ++ b
  else a ++ lit "/" ++ b.

(** [filename.endswith(('.pdf', '.docx'))] *)
Definition supported (filename : str) : bool :=
  endswith filename (lit ".pdf") || endswith filename (lit ".docx").

(** An upload ends with a response, with an HTTP error raised by the
    handler, or with an exception of the file system that escapes it. *)
Inductive UploadError : Type :=
  | Refused (h : HTTPException)
  | Unhandled (e : Exception).

(** [f"{file_id}_{file.filename}"] under [temp_uploads]. *)
Definition upload_path (file_id filename : str) : str :=
  path_join (lit "temp_uploads") (file_id ++ lit "_" ++ filename).

(** [upload_file]: [uuid4] is the string of the identifier drawn for the
    request; [write_upload] makes the directory and copies the upload to
    the path, and returns the exception raised, if any. *)
Definition upload_file (uuid4 : str) (write_upload : str -> option Exception)
    (filename : str) (file_storage : gmap str Job)
  : (UploadError + FileUploadResponse) * gmap str Job :=
  if negb (supported filename) then
    (inl (Refused (HTTPError 400 (lit "Only PDF and DOCX files are supported"))),
     file_storage)
  else
    let file_id := uuid4 in
    let file_path := upload_path file_id filename in
    match write_upload file_path with
    | Some e => (inl (Unhandled e), file_storage)
    | None =>
        (inr (mkFileUploadResponse file_id
                (lit "File " ++ filename ++ lit " uploaded successfully")),
         <[file_id := uploaded_job file_path filename]> file_storage)
    end.

(** [download_file]; [path_exists] is [os.path.exists]. *)
Definition download_file (path_exists : str -> bool) (file_id : str)
    (file_storage : gmap str Job) : HTTPException + FileResponse :=
  match file_storage !! file_id with
  | None => inl (HTTPError 404 (lit "File not found"))
  | Some file_info =>
      if negb (status_eqb (job_status file_info) correction_complete)
      then inl (HTTPError 400
                  (lit "Document correction not complete. Current status: "
                   ++ status_str (job_status file_info)))
      else if negb (path_exists (job_output_path file_info))
      then inl (HTTPError 404 (lit "Corrected file not found"))
      else inr (mkFileResponse (job_output_path file_info)
                  (lit "corrected_"
                   ++ take_until (chr ".") (job_original_filename file_info)
                   ++ lit ".docx")
                  (lit "application/vnd.openxmlformats-officedocument.wordprocessingml.document"))
  end.

End Files.

Import Files.

(** ** Vocabulary of the properties *)

(** Every character is white space. *)
Definition all_space (w : str) : Prop := Forall (fun c => isspace c = true) w.

(** A string is tight when stripping it on either side changes nothing. *)
Definition tight (m : str) : Prop := lstrip m = m /\ lstrip (rev m) = rev m.

(** The buffer built from a group of trimmed paragraphs, and the chunk
    flushed from it. *)
Definition buffer_of (g : list str) : str := concat (map (fun s => s ++ sep) g).
Definition chunk_of (g : list str) : str := strip (buffer_of g).

(** A closed group holds one paragraph, or its buffer fits [chunk_size]. *)
Definition group_ok (chunk_size : Z) (g : list str) : Prop :=
  g <> [] /\ (len (buffer_of g) <= chunk_size \/ exists s, g = [s]).

(** The loop invariant: the paragraphs read so far are cut into closed
    groups, one per chunk already emitted, and an open group held in the
    buffer. *)
Definition grouped (chunk_size : Z) (pre : list str) (st : loop_state) : Prop :=
  exists groups g,
    map strip pre = concat groups ++ g
    /\ fst st = map chunk_of groups
    /\ snd st = buffer_of g
    /\ Forall (group_ok chunk_size) groups
    /\ (g = [] -> pre = [])
    /\ (g <> [] -> group_ok chunk_size g).

(** The last character exists and is not white space. *)
Fixpoint last_nonspace (s : str) : bool :=
  match s with
  | [] => false
  | c :: r => match r with [] => negb (isspace c) | _ :: _ => last_nonspace r end
  end.

(** Two consecutive newlines occur in the string. *)
Fixpoint has_sep (s : str) : bool :=
  match s with
  | [] => false
  | c :: r =>
      match r with
      | [] => false
      | d :: _ => N.eqb c nl && N.eqb d nl || has_sep r
      end
  end.

(** The non-empty trimmed paragraphs of a list of pieces, and of a text. *)
Definition contents (l : list str) : list str := List.filter truthy (map strip l).
Definition paragraph_content (s : str) : list str := contents (split s).

(** Between two consecutive groups, the first paragraph of the second
    one did not fit the buffer of the first. *)
Fixpoint greedy (chunk_size : Z) (groups : list (list str)) : Prop :=
  match groups with
  | g1 :: tl =>
      match tl with
      | (s :: _) :: _ => chunk_size < len (buffer_of g1) + len (s ++ sep)
      | _ => True
      end /\ greedy chunk_size tl
  | [] => True
  end.

(** The groups closed so far and the open one, when it is not empty. *)
Definition with_open (groups : list (list str)) (g : list str) : list (list str) :=
  match g with [] => groups | _ :: _ => groups ++ [g] end.

(** The loop invariant of the greedy packing. *)
Definition packed (chunk_size : Z) (pre : list str) (st : loop_state) : Prop :=
  exists groups g,
    map strip pre = concat groups ++ g
    /\ fst st = map chunk_of groups
    /\ snd st = buffer_of g
    /\ (g = [] -> groups = [])
    /\ greedy chunk_size (with_open groups g).

(** The environment [env'] is [env] but for the [original_text] of the
    state. *)
Definition only_original_text_differs (env env' : Env) : Prop :=
  env_world env' = env_world env
  /\ st_file_path (env_state env') = st_file_path (env_state env)
  /\ st_chunks (env_state env') = st_chunks (env_state env)
  /\ st_compliance_reports (env_state env') = st_compliance_reports (env_state env)
  /\ st_corrected_chunks (env_state env') = st_corrected_chunks (env_state env)
  /\ st_final_corrected_doc (env_state env') = st_final_corrected_doc (env_state env)
  /\ st_output_path (env_state env') = st_output_path (env_state env).

(** The job [j] is [job] after a stage that raised [e]: the status is
    [error], the [error] field holds the message of [e], and the other
    fields are those of [job]. *)
Definition records_failure (job : Job) (e : Exception) (j : Job) : Prop :=
  job_status j = error
  /\ job_error j = Some (exc_str e)
  /\ (forall m, e = ValueError m \/ e = ExternalError m -> job_error j = Some m)
  /\ job_file_path j = job_file_path job
  /\ job_original_filename j = job_original_filename job
  /\ job_compliance_reports j = job_compliance_reports job
  /\ job_chunks j = job_chunks job
  /\ job_original_text j = job_original_text job
  /\ job_corrected_chunks j = job_corrected_chunks job
  /\ job_final_corrected_doc j = job_final_corrected_doc job
  /\ job_output_path j = job_output_path job
  /\ job_state j = job_state job.

(** What an executor may do to the store: [done] is the status of the
    stage's completion. *)
Definition executor_frame (file_id : str) (file_storage : gmap str Job) (w : World)
    (done : Status) (res : TaskResult) : Prop :=
  dom res.1.2 = dom file_storage
  /\ (forall other, other <> file_id -> res.1.2 !! other = file_storage !! other)
  /\ (forall job, file_storage !! file_id = Some job ->
        res.1.1 = None
        /\ exists j1, res.1.2 !! file_id = Some j1
             /\ job_file_path j1 = job_file_path job
             /\ job_original_filename j1 = job_original_filename job
             /\ (job_status j1 = done \/ job_status j1 = error))
  /\ (file_storage !! file_id = None ->
        res = (Some (KeyError file_id), file_storage, w)).

(** What the boundary answers on a job that a failed stage left: both
    triggers and the download are refused, and the status query shows
    the status [error] with the message, if it is not empty. *)
Definition refused_after_failure (file_id : str) (file_storage : gmap str Job)
    (message : str) (reports : list str) : Prop :=
  check_compliance file_id file_storage
  = (inl (HTTPError 400 (lit "File is currently error")), [])
  /\ correct_document file_id file_storage
     = (inl (HTTPError 400
               (lit "File must be compliance checked first. Current status: error")), [])
  /\ (forall path_exists,
        download_file path_exists file_id file_storage
        = inl (HTTPError 400
                 (lit "Document correction not complete. Current status: error")))
  /\ get_status file_id file_storage
     = inr (mkStatusResponse file_id error
              (if truthy message then Some (lit "Error: " ++ message) else None)
              reports).

Section LoopVocabulary.

Context `{C : Collaborators}.

(** Both loops send one prompt per chunk, in order, and append the
    post-processed response to a local list. *)
Fixpoint llm_loop (prompt post : str -> str) (chunks acc : list str) : M (list str) :=
  match chunks with
  | [] => ret acc
  | chunk :: rest =>
      bind (llm_call (prompt chunk))
           (fun response => llm_loop prompt post rest (acc ++ [post response]))
  end.

(** What a loop that returned has done. *)
Definition loop_result (prompt post : str -> str) (chunks : list str)
    (first_call : nat) (out : list str) : Prop :=
  length out = length chunks
  /\ forall (i : nat) (chunk : str), chunks !! i = Some chunk ->
       exists response,
         llm_ainvoke (first_call + i) (prompt chunk) = inr response
         /\ out !! i = Some (post response).

(** What a loop that raised [e] has done: the calls before call [k]
    returned, call [k] raised [e], and nothing was sent after it. *)
Definition loop_failure (prompt : str -> str) (chunks : list str)
    (env : Env) (e : Exception) (env' : Env) : Prop :=
  env_state env' = env_state env
  /\ documents (env_world env') = documents (env_world env)
  /\ exists (k : nat) (chunk : str),
       chunks !! k = Some chunk
       /\ llm_ainvoke (length (llm_calls (env_world env)) + k) (prompt chunk) = inl e
       /\ (forall (i : nat) (c : str), (i < k)%nat -> chunks !! i = Some c ->
             exists response,
               llm_ainvoke (length (llm_calls (env_world env)) + i) (prompt c)
               = inr response)
       /\ llm_calls (env_world env')
          = llm_calls (env_world env) ++ map prompt (take (S k) chunks).

End LoopVocabulary.

(** ** Concrete jobs and stub collaborators *)

(** A store holding one job, in a given status. *)
Definition demo_id : str := lit "job-1".
Definition demo_path : str := lit "temp_uploads/job-1_report.pdf".
Definition demo_job (s : Status) : Job :=
  set_status s (uploaded_job demo_path (lit "report.pdf")).
Definition demo_store (s : Status) : gmap str Job := {[ demo_id := demo_job s ]}.

(** A document of two pages that do not fit one chunk together, a text
    service that answers every prompt with a padded reply, and a file
    system that never fails. *)
Definition stub_pages : list str := [repeat (chr "x") 1990; lit " Para two is. "].

Definition stub : Collaborators := {|
  PDFPlumberLoader_load := fun _ => inr stub_pages;
  Docx2txtLoader_load := fun _ => inr stub_pages;
  llm_ainvoke := fun n _ => inr (lit "  reply " ++ repeat (chr "!") n ++ [nl]);
  makedirs := fun _ => None;
  Document_save := fun _ _ => None;
  empty_input := ExternalError (lit "Received no input")
|}.

(** A short document and a text service that always fails. *)
Definition stub_failing : Collaborators := {|
  PDFPlumberLoader_load := fun _ => inr [lit "Para one."; lit " Para two is. "];
  Docx2txtLoader_load := fun _ => inr [lit "Para one."; lit " Para two is. "];
  llm_ainvoke := fun _ _ => inl (ExternalError (lit "quota exceeded"));
  makedirs := fun _ => None;
  Document_save := fun _ _ => None;
  empty_input := ExternalError (lit "Received no input")
|}.

(** A short document and a text service that works. *)
Definition stub_short : Collaborators := {|
  PDFPlumberLoader_load := fun _ => inr [lit "Para one."; lit " Para two is. "];
  Docx2txtLoader_load := fun _ => inr [lit "Para one."; lit " Para two is. "];
  llm_ainvoke := fun _ _ => inr (lit "report");
  makedirs := fun _ => None;
  Document_save := fun _ _ => None;
  empty_input := ExternalError (lit "Received no input")
|}.

Definition empty_world : World := mkWorld [] [].

(** A run of both stages on the stub collaborators. *)
Definition demo_checked : TaskResult :=
  process_compliance_check (C := stub) demo_id demo_path (demo_store uploaded) empty_world.
Definition demo_checked_job : Job :=
  default (demo_job uploaded) (demo_checked.1.2 !! demo_id).
Definition demo_corrected : TaskResult :=
  process_document_correction (C := stub) demo_id demo_checked.1.2 demo_checked.2.
Definition demo_corrected_job : Job :=
  default (demo_job uploaded) (demo_corrected.1.2 !! demo_id).

(** The job that Check left, with another raw text in the job and in
    its state, and the Correct stage run on it. *)
Definition demo_retexted_job : Job :=
  mkJob (job_file_path demo_checked_job) (job_original_filename demo_checked_job)
        (job_status demo_checked_job) (job_compliance_reports demo_checked_job)
        (job_chunks demo_checked_job) (lit "another text")
        (job_corrected_chunks demo_checked_job)
        (job_final_corrected_doc demo_checked_job) (job_output_path demo_checked_job)
        (set_original_text (lit "another text") <$> job_state demo_checked_job)
        (job_error demo_checked_job).
Definition demo_retexted_store : gmap str Job := {[ demo_id := demo_retexted_job ]}.
Definition demo_recorrected : TaskResult :=
  process_document_correction (C := stub) demo_id demo_retexted_store demo_checked.2.
Definition demo_recorrected_job : Job :=
  default (demo_job uploaded) (demo_recorrected.1.2 !! demo_id).

(** A job that failed with a message and is checked again with a text
    service that works. *)
Definition demo_failed_job : Job := set_error (lit "quota exceeded") (demo_job error).
Definition demo_failed_store : gmap str Job := {[ demo_id := demo_failed_job ]}.
Definition demo_rechecked : TaskResult :=
  process_compliance_check (C := stub_short) demo_id demo_path demo_failed_store empty_world.

(** A text service that answers its first call only. *)
Definition stub_second_fails : Collaborators := {|
  PDFPlumberLoader_load := fun _ => inr [];
  Docx2txtLoader_load := fun _ => inr [];
  llm_ainvoke := fun n _ =>
    match n with
    | O => inr (lit "report")
    | S _ => inl (ExternalError (lit "quota exceeded"))
    end;
  makedirs := fun _ => None;
  Document_save := fun _ _ => None;
  empty_input := ExternalError (lit "Received no input")
|}.

Definition three_chunks_env : Env :=
  mkEnv (set_chunks [lit "one"; lit "two"; lit "three"] (ComplianceState_init (lit "a.pdf")))
        empty_world.

(** A loader that finds no page. *)
Definition stub_blank : Collaborators := {|
  PDFPlumberLoader_load := fun _ => inr [];
  Docx2txtLoader_load := fun _ => inr [];
  llm_ainvoke := fun _ _ => inr (lit "report");
  makedirs := fun _ => None;
  Document_save := fun _ _ => None;
  empty_input := ExternalError (lit "Received no input")
|}.

Definition demo_blank : TaskResult :=
  process_compliance_check (C := stub_blank) demo_id demo_path (demo_store uploaded)
    empty_world.

Definition demo_uploaded : gmap str Job :=
  snd (upload_file (lit "7f3a") (fun _ => None) (lit "report.v2.pdf") ∅).
Definition demo_upload_checked : TaskResult :=
  process_compliance_check (C := stub_short) (lit "7f3a")
    (upload_path (lit "7f3a") (lit "report.v2.pdf")) demo_uploaded empty_world.
Definition demo_upload_corrected : TaskResult :=
  process_document_correction (C := stub_short) (lit "7f3a")
    demo_upload_checked.1.2 demo_upload_checked.2.

(** ** Examples of the chunker *)

Example split_two : split (lit "Para one.

Para two") = [lit "Para one."; lit "Para two"].
Proof. reflexivity. Qed.

Example chunk_two :
  paragraph_chunk_split (lit "Para one.

Para two is.") 20 = [lit "Para one."; lit "Para two is."].
Proof. reflexivity. Qed.

(** ** Facts about [lstrip], [rstrip] and [strip] *)

Section StripFacts.

Lemma isspace_nl : isspace nl = true.
Proof. reflexivity. Qed.

Lemma all_space_sep : all_space sep.
Proof. repeat constructor. Qed.

Lemma all_space_app w1 w2 : all_space w1 -> all_space w2 -> all_space (w1 ++ w2).
Proof. unfold all_space. intros; apply Forall_app; auto. Qed.

Lemma all_space_rev w : all_space w -> all_space (rev w).
Proof.
  unfold all_space. intros H. apply List.Forall_forall. intros c Hc.
  apply List.in_rev in Hc. revert c Hc. apply List.Forall_forall. exact H.
Qed.

Lemma lstrip_space_app w s : all_space w -> lstrip (w ++ s) = lstrip s.
Proof.
  induction 1 as [|c w Hc _ IH]; simpl; [reflexivity|]. now rewrite Hc.
Qed.

Lemma lstrip_all_space w : all_space w -> lstrip w = [].
Proof.
  intros H. rewrite <- (app_nil_r w). now rewrite lstrip_space_app.
Qed.

Lemma lstrip_length s : (length (lstrip s) <= length s)%nat.
Proof.
  induction s as [|c r IH]; simpl; [lia|]. destruct (isspace c); simpl; lia.
Qed.

Lemma lstrip_head c r : lstrip (c :: r) = c :: r -> isspace c = false.
Proof.
  simpl. destruct (isspace c); [|reflexivity].
  intros H. pose proof (lstrip_length r) as L. rewrite H in L. simpl in L. lia.
Qed.

Lemma lstrip_nonspace c r : isspace c = false -> lstrip (c :: r) = c :: r.
Proof. simpl. now intros ->. Qed.

Lemma lstrip_split s : exists w, all_space w /\ s = w ++ lstrip s.
Proof.
  induction s as [|c r [w [Hw E]]]; simpl.
  - exists []. split; [constructor|reflexivity].
  - destruct (isspace c) eqn:Hc.
    + exists (c :: w). split; [constructor; assumption|]. simpl. now rewrite <- E.
    + exists []. split; [constructor|reflexivity].
Qed.

Lemma lstrip_idem s : lstrip (lstrip s) = lstrip s.
Proof.
  induction s as [|c r IH]; simpl; [reflexivity|].
  destruct (isspace c) eqn:Hc; [assumption|]. simpl. now rewrite Hc.
Qed.

Lemma lstrip_fixed_app m x : m <> [] -> lstrip m = m -> lstrip (m ++ x) = m ++ x.
Proof.
  destruct m as [|c r]; [congruence|]. intros _ H.
  apply lstrip_head in H. simpl. now rewrite H.
Qed.

Lemma tight_nil : tight [].
Proof. split; reflexivity. Qed.

(** [strip s] is the tight middle of [s]. *)
Lemma strip_spec s :
  exists w1 w2, all_space w1 /\ all_space w2 /\ tight (strip s)
                /\ s = w1 ++ strip s ++ w2.
Proof.
  destruct (lstrip_split s) as [w1 [H1 E1]].
  destruct (lstrip_split (rev (lstrip s))) as [w2 [H2 E2]].
  exists w1, (rev w2). split; [assumption|]. split; [now apply all_space_rev|].
  assert (E : lstrip s = strip s ++ rev w2).
  { unfold strip, rstrip. rewrite <- rev_app_distr, <- E2. now rewrite rev_involutive. }
  split.
  - split.
    + destruct (strip s) as [|c r] eqn:Em; [reflexivity|].
      apply lstrip_nonspace.
      pose proof (lstrip_idem s) as I. rewrite E in I. simpl in I.
      now apply lstrip_head in I.
    + unfold strip, rstrip. rewrite rev_involutive. apply lstrip_idem.
  - now rewrite <- E.
Qed.

Lemma strip_unique w1 m w2 :
  all_space w1 -> all_space w2 -> tight m -> strip (w1 ++ m ++ w2) = m.
Proof.
  intros H1 H2 [Hl Hr]. unfold strip. rewrite lstrip_space_app by assumption.
  destruct m as [|c r].
  - simpl. rewrite lstrip_all_space by assumption. reflexivity.
  - rewrite lstrip_fixed_app by (congruence || assumption).
    unfold rstrip. rewrite rev_app_distr.
    rewrite lstrip_space_app by now apply all_space_rev.
    rewrite Hr. apply rev_involutive.
Qed.

Lemma strip_tight m : tight m -> strip m = m.
Proof.
  intros H. rewrite <- (strip_unique [] m []) at 2; try assumption; try constructor.
  now rewrite app_nil_r.
Qed.

Lemma tight_strip s : tight (strip s).
Proof. destruct (strip_spec s) as (w1 & w2 & _ & _ & H & _). exact H. Qed.

Lemma strip_idem s : strip (strip s) = strip s.
Proof. apply strip_tight, tight_strip. Qed.

Lemma strip_app_space s w : all_space w -> strip (s ++ w) = strip s.
Proof.
  intros Hw. destruct (strip_spec s) as (w1 & w2 & H1 & H2 & Ht & E).
  rewrite E at 1. rewrite <- !app_assoc.
  apply strip_unique; auto using all_space_app.
Qed.

Lemma strip_space_app w s : all_space w -> strip (w ++ s) = strip s.
Proof.
  intros Hw. destruct (strip_spec s) as (w1 & w2 & H1 & H2 & Ht & E).
  rewrite E at 1. rewrite app_assoc.
  apply strip_unique; auto using all_space_app.
Qed.

Lemma strip_all_space w : all_space w -> strip w = [].
Proof.
  intros H. rewrite <- (app_nil_l w). rewrite strip_app_space by assumption.
  reflexivity.
Qed.

Lemma strip_length s : (length (strip s) <= length s)%nat.
Proof.
  destruct (strip_spec s) as (w1 & w2 & _ & _ & _ & E).
  rewrite E at 2. rewrite !length_app. lia.
Qed.

Lemma strip_nil_all_space s : strip s = [] -> all_space s.
Proof.
  intros H. destruct (strip_spec s) as (w1 & w2 & H1 & H2 & _ & E).
  rewrite H in E. rewrite E. now apply all_space_app.
Qed.

End StripFacts.

(** ** The chunker groups consecutive paragraphs *)

Section Grouping.

Lemma fold_left_prefix_ind {A B} (f : A -> B -> A) (P : list B -> A -> Prop) init :
  P [] init ->
  (forall pre x a, P pre a -> P (pre ++ [x]) (f a x)) ->
  forall l, P l (fold_left f l init).
Proof.
  intros H0 Hs l. induction l as [|x l IH] using rev_ind; [exact H0|].
  rewrite fold_left_app. simpl. apply Hs, IH.
Qed.

Lemma buffer_of_snoc g s : buffer_of (g ++ [s]) = buffer_of g ++ s ++ sep.
Proof. unfold buffer_of. rewrite map_app, concat_app. simpl. now rewrite app_nil_r. Qed.

Lemma truthy_buffer_of g : truthy (buffer_of g) = true <-> g <> [].
Proof.
  destruct g as [|s g]; simpl; [split; [discriminate|congruence]|].
  split; [congruence|]. intros _. unfold buffer_of. simpl.
  destruct s; reflexivity.
Qed.

Lemma buffer_of_falsy g : truthy (buffer_of g) = false -> g = [].
Proof.
  destruct g as [|s g]; [reflexivity|]. unfold buffer_of. simpl.
  destruct s; discriminate.
Qed.

Lemma truthy_false s : truthy s = false -> s = [].
Proof. destruct s; [reflexivity|discriminate]. Qed.

Lemma chunk_of_single s : tight s -> chunk_of [s] = s.
Proof.
  intros H. unfold chunk_of, buffer_of. simpl. rewrite app_nil_r.
  rewrite strip_app_space by apply all_space_sep. now apply strip_tight.
Qed.

Lemma len_buffer_member g s : In s g -> len s + 2 <= len (buffer_of g).
Proof.
  unfold len, buffer_of. induction g as [|x g IH]; simpl; [tauto|].
  intros [->|H]; rewrite !length_app; simpl.
  - lia.
  - specialize (IH H). lia.
Qed.

Lemma grouped_step chunk_size pre p st :
  grouped chunk_size pre st ->
  grouped chunk_size (pre ++ [p]) (step chunk_size st p).
Proof.
  intros (groups & g & Hc & Hch & Hb & Hok & Hnil & Hopen).
  destruct st as [chunks cur]. simpl in Hch, Hb. subst chunks cur.
  unfold step, grouped. rewrite map_app. simpl map.
  destruct (len (buffer_of g) + len (strip p ++ sep) >? chunk_size) eqn:Hgt.
  - destruct (truthy (buffer_of g)) eqn:Ht.
    + apply truthy_buffer_of in Ht.
      exists (groups ++ [g]), [strip p]. simpl. repeat split.
      * rewrite Hc, concat_app. simpl. now rewrite app_nil_r, <- app_assoc.
      * now rewrite map_app.
      * unfold buffer_of. simpl. now rewrite app_nil_r.
      * apply Forall_app. split; [assumption|]. constructor; [auto|constructor].
      * discriminate.
      * discriminate.
      * right. eauto.
    + apply buffer_of_falsy in Ht. subst g.
      exists groups, [strip p]. simpl. repeat split.
      * rewrite Hc. now rewrite !app_nil_r.
      * unfold buffer_of. simpl. now rewrite app_nil_r.
      * assumption.
      * discriminate.
      * discriminate.
      * right. eauto.
  - exists groups, (g ++ [strip p]). simpl. repeat split.
    + rewrite Hc. now rewrite app_assoc.
    + now rewrite buffer_of_snoc.
    + assumption.
    + intros E. now apply app_eq_nil in E as [_ ?].
    + intros E. now apply app_eq_nil in E as [_ ?].
    + left. rewrite buffer_of_snoc.
      rewrite Z.gtb_ltb in Hgt. apply Z.ltb_ge in Hgt.
      unfold len in *. rewrite !length_app in *. lia.
Qed.

Lemma split_aux_nonempty acc s : split_aux acc s <> [].
Proof.
  revert acc. induction s as [|c r IH]; intros acc; simpl; [discriminate|].
  destruct r as [|d r']; [discriminate|].
  destruct (N.eqb c nl && N.eqb d nl); [discriminate|apply IH].
Qed.

(** The chunks of a text are the chunks of consecutive groups of its
    trimmed paragraphs. *)
Lemma paragraph_chunk_split_groups text chunk_size :
  exists groups,
    concat groups = map strip (split text)
    /\ paragraph_chunk_split text chunk_size = map chunk_of groups
    /\ Forall (group_ok chunk_size) groups.
Proof.
  unfold paragraph_chunk_split.
  pose proof (fold_left_prefix_ind (step chunk_size) (grouped chunk_size) ([], [])) as H.
  specialize (H ltac:(exists [], []; simpl; repeat split; auto; congruence)
                (fun pre x a Ha => grouped_step chunk_size pre x a Ha) (split text)).
  destruct (fold_left (step chunk_size) (split text) ([], [])) as [chunks cur].
  destruct H as (groups & g & Hc & Hch & Hb & Hok & Hnil & Hopen).
  simpl in Hch, Hb. subst chunks cur.
  destruct (truthy (buffer_of g)) eqn:Ht.
  - apply truthy_buffer_of in Ht. exists (groups ++ [g]). repeat split.
    + rewrite Hc, concat_app. simpl. now rewrite app_nil_r.
    + now rewrite map_app.
    + apply Forall_app. split; [assumption|]. constructor; [auto|constructor].
  - apply buffer_of_falsy in Ht. subst g.
    exfalso. apply (split_aux_nonempty [] text). now apply Hnil.
Qed.

End Grouping.

(** ** Facts about [split] *)

Section SplitFacts.

(** Induction following the two-character look-ahead of [split_aux]. *)
Lemma str_ind2 (P : list char -> Prop) :
  P [] -> (forall c, P [c]) ->
  (forall c d r, P r -> P (d :: r) -> P (c :: d :: r)) ->
  forall s, P s.
Proof.
  intros H0 H1 H2 s.
  assert (H : P s /\ forall c, P (c :: s)); [|apply H].
  induction s as [|d r [IH1 IH2]]; split; auto.
Qed.

Lemma contents_app l1 l2 : contents (l1 ++ l2) = contents l1 ++ contents l2.
Proof. unfold contents. now rewrite map_app, List.filter_app. Qed.

Lemma contents_space w : all_space w -> contents [w] = [].
Proof. intros H. unfold contents. simpl. now rewrite strip_all_space. Qed.

Lemma contents_cons_space w l : all_space w -> contents (w :: l) = contents l.
Proof. intros H. change (w :: l) with ([w] ++ l). now rewrite contents_app, contents_space. Qed.

Lemma last_nonspace_snoc x c : last_nonspace (x ++ [c]) = negb (isspace c).
Proof.
  induction x as [|a x IH]; [reflexivity|].
  simpl. destruct (x ++ [c]) eqn:E; [now destruct x|]. exact IH.
Qed.

Lemma tight_last_nonspace m : tight m -> m <> [] -> last_nonspace m = true.
Proof.
  intros [_ Hr] Hm. destruct (rev m) as [|c r] eqn:E.
  - apply (f_equal (@rev char)) in E. rewrite rev_involutive in E. now subst.
  - apply lstrip_head in Hr.
    apply (f_equal (@rev char)) in E. rewrite rev_involutive in E. simpl in E.
    subst m. rewrite last_nonspace_snoc. now rewrite Hr.
Qed.

Lemma nl_eqb_space c d : N.eqb c nl && N.eqb d nl = true -> isspace c = true /\ isspace d = true.
Proof.
  intros H. apply andb_prop in H as [H1 H2].
  apply N.eqb_eq in H1, H2. now subst.
Qed.

Lemma split_aux_cons2 acc c d r :
  split_aux acc (c :: d :: r) =
  if N.eqb c nl && N.eqb d nl
  then rev acc :: split_aux [] r
  else split_aux (c :: acc) (d :: r).
Proof. reflexivity. Qed.

(** The accumulator only prefixes the first piece. *)
Lemma split_aux_acc s : forall acc,
  exists h t, split s = h :: t /\ split_aux acc s = (rev acc ++ h) :: t.
Proof.
  unfold split. induction s as [| c | c d r IHr IHdr] using str_ind2; intros acc.
  - exists [], []. simpl. now rewrite app_nil_r.
  - exists [c], []. simpl. auto.
  - simpl. destruct (N.eqb c nl && N.eqb d nl).
    + exists [], (split_aux [] r). now rewrite app_nil_r.
    + destruct (IHdr [c]) as (h & t & E1 & E2).
      destruct (IHdr (c :: acc)) as (h' & t' & E1' & E2').
      rewrite E1 in E1'. injection E1' as <- <-.
      exists (c :: h), t. simpl in *. rewrite E2, E2'. split; [reflexivity|].
      now rewrite <- app_assoc.
Qed.

(** Splitting distributes over a delimiter that follows a string not
    ending in a newline. *)
Lemma split_aux_app_sep a b : a = [] \/ last_nonspace a = true ->
  forall acc, split_aux acc (a ++ sep ++ b) = split_aux acc a ++ split b.
Proof.
  unfold split. induction a as [| c | c d r IHr IHdr] using str_ind2; intros Ha acc.
  - reflexivity.
  - destruct Ha as [Ha|Ha]; [discriminate|]. simpl in Ha.
    simpl. destruct (N.eqb c nl) eqn:E.
    + apply N.eqb_eq in E. subst c. discriminate.
    + reflexivity.
  - destruct Ha as [Ha|Ha]; [discriminate|].
    change ((c :: d :: r) ++ sep ++ b) with (c :: d :: (r ++ sep ++ b)).
    rewrite !split_aux_cons2.
    destruct (N.eqb c nl && N.eqb d nl) eqn:E.
    + simpl. f_equal. apply IHr.
      destruct r as [|e r]; [|right; exact Ha].
      apply nl_eqb_space in E as [_ E]. simpl in Ha. rewrite E in Ha. discriminate.
    + apply (IHdr (or_intror Ha)).
Qed.

Lemma paragraph_content_app_sep a b : a = [] \/ last_nonspace a = true ->
  paragraph_content (a ++ sep ++ b) = paragraph_content a ++ paragraph_content b.
Proof.
  intros Ha. unfold paragraph_content, split.
  rewrite split_aux_app_sep by assumption. apply contents_app.
Qed.

(** White space after the last delimiter found so far adds nothing. *)
Lemma contents_split_aux_space w : all_space w ->
  forall acc, contents (split_aux acc w) = contents [rev acc].
Proof.
  induction w as [| c | c d r IHr IHdr] using str_ind2; intros Hw acc.
  - reflexivity.
  - simpl. unfold contents. simpl. rewrite strip_app_space; [reflexivity|exact Hw].
  - rewrite split_aux_cons2. apply Forall_cons in Hw as [Hc Hw].
    destruct (N.eqb c nl && N.eqb d nl).
    + apply Forall_cons in Hw as [_ Hw].
      change (rev acc :: split_aux [] r) with ([rev acc] ++ split_aux [] r).
      rewrite contents_app, IHr by assumption.
      apply app_nil_r.
    + rewrite IHdr by assumption. unfold contents. simpl.
      rewrite strip_app_space; [reflexivity|]. now constructor.
Qed.

Lemma paragraph_content_space w : all_space w -> paragraph_content w = [].
Proof.
  intros H. unfold paragraph_content, split.
  rewrite contents_split_aux_space by assumption. apply contents_space. constructor.
Qed.

(** Trailing white space adds no paragraph. *)
Lemma contents_split_aux_app_space y w : last_nonspace y = true -> all_space w ->
  forall acc, contents (split_aux acc (y ++ w)) = contents (split_aux acc y).
Proof.
  intros Hy Hw. induction y as [| c | c d r IHr IHdr] using str_ind2; intros acc.
  - discriminate.
  - simpl in Hy. apply negb_true_iff in Hy.
    destruct w as [|e w]; [reflexivity|].
    change ([c] ++ e :: w) with (c :: e :: w). rewrite split_aux_cons2.
    replace (N.eqb c nl) with false.
    2:{ symmetry. apply not_true_is_false. intros E. apply N.eqb_eq in E.
        subst c. discriminate. }
    cbn [andb]. now rewrite (contents_split_aux_space (e :: w)).
  - change ((c :: d :: r) ++ w) with (c :: d :: (r ++ w)).
    rewrite !split_aux_cons2.
    destruct (N.eqb c nl && N.eqb d nl) eqn:E.
    + change (contents ([rev acc] ++ split_aux [] (r ++ w))
              = contents ([rev acc] ++ split_aux [] r)).
      rewrite !contents_app. f_equal. apply IHr.
      destruct r as [|e r]; [|exact Hy].
      apply nl_eqb_space in E as [_ E]. simpl in Hy. rewrite E in Hy. discriminate.
    + apply (IHdr Hy).
Qed.

(** Leading white space adds no paragraph. *)
Lemma contents_split_aux_space_app w y : all_space w -> (forall y', y <> nl :: y') ->
  forall acc, all_space acc -> contents (split_aux acc (w ++ y)) = paragraph_content y.
Proof.
  intros Hw Hy.
  assert (Base : forall acc, all_space acc -> contents (split_aux acc y) = paragraph_content y).
  { intros acc Hacc. destruct (split_aux_acc y acc) as (h & t & E1 & E2).
    unfold paragraph_content. rewrite E1, E2. unfold contents. simpl.
    rewrite strip_space_app; [reflexivity|]. now apply all_space_rev. }
  induction w as [| c | c d r IHr IHdr] using str_ind2; intros acc Hacc.
  - now apply Base.
  - destruct y as [|e y].
    + simpl. rewrite contents_space; [reflexivity|].
      apply all_space_app; [now apply all_space_rev|exact Hw].
    + change ([c] ++ e :: y) with (c :: e :: y). rewrite split_aux_cons2.
      replace (N.eqb c nl && N.eqb e nl) with false.
      2:{ symmetry. apply not_true_is_false. intros E. apply andb_prop in E as [_ E].
          apply N.eqb_eq in E. subst e. now apply (Hy y). }
      apply Base. apply Forall_cons in Hw as [Hc _]. now constructor.
  - change ((c :: d :: r) ++ y) with (c :: d :: (r ++ y)).
    rewrite split_aux_cons2. apply Forall_cons in Hw as [Hc Hw].
    destruct (N.eqb c nl && N.eqb d nl).
    + apply Forall_cons in Hw as [_ Hw].
      rewrite contents_cons_space by now apply all_space_rev.
      apply IHr; [assumption|constructor].
    + apply IHdr; [assumption|now constructor].
Qed.

(** Trimming a text keeps its paragraph content. *)
Lemma paragraph_content_strip x : paragraph_content (strip x) = paragraph_content x.
Proof.
  destruct (strip_spec x) as (w1 & w2 & H1 & H2 & Ht & E).
  destruct (strip x) as [|c m] eqn:Em.
  - simpl in E. rewrite E. rewrite !paragraph_content_space; auto using all_space_app.
    constructor.
  - rewrite E. unfold paragraph_content at 2. unfold split.
    rewrite contents_split_aux_space_app; [|assumption| |constructor].
    + unfold paragraph_content, split.
      rewrite contents_split_aux_app_space; [reflexivity| |assumption].
      apply tight_last_nonspace; [assumption|discriminate].
    + intros y' Ey. destruct Ht as [Hl _]. apply lstrip_head in Hl.
      simpl in Ey. injection Ey as -> _. discriminate.
Qed.

Lemma has_sep_snoc x c : has_sep x = false ->
  (forall x', x = x' ++ [nl] -> c <> nl) -> has_sep (x ++ [c]) = false.
Proof.
  induction x as [| a | a b r IHr IHbr] using str_ind2; intros Hx Hc.
  - reflexivity.
  - simpl. rewrite orb_false_r. apply not_true_is_false. intros E.
    apply andb_prop in E as [E1 E2]. apply N.eqb_eq in E1, E2. subst.
    now apply (Hc []).
  - change ((a :: b :: r) ++ [c]) with (a :: b :: (r ++ [c])).
    simpl in Hx. apply orb_false_elim in Hx as [Hx1 Hx2].
    change (N.eqb a nl && N.eqb b nl || has_sep (b :: (r ++ [c])) = false).
    rewrite Hx1. simpl orb. apply (IHbr Hx2).
    intros x' E. apply (Hc (a :: x')). simpl. now rewrite <- E.
Qed.

Lemma split_no_sep s : has_sep s = false -> forall acc, split_aux acc s = [rev acc ++ s].
Proof.
  induction s as [| c | c d r IHr IHdr] using str_ind2; intros Hs acc.
  - simpl. now rewrite app_nil_r.
  - reflexivity.
  - simpl in Hs. apply orb_false_elim in Hs as [Hs1 Hs2].
    rewrite split_aux_cons2, Hs1. rewrite (IHdr Hs2). simpl. now rewrite <- app_assoc.
Qed.

(** No piece returned by [split] contains the delimiter. *)
Lemma split_aux_pieces s : forall acc,
  has_sep (rev acc) = false ->
  (forall x y, acc = nl :: x -> s <> nl :: y) ->
  Forall (fun p => has_sep p = false) (split_aux acc s).
Proof.
  induction s as [| c | c d r IHr IHdr] using str_ind2; intros acc Hacc Hk.
  - simpl. now constructor.
  - simpl. constructor; [|constructor]. apply has_sep_snoc; [assumption|].
    intros x' E Ec. subst c. apply (f_equal (@rev char)) in E.
    rewrite rev_involutive, rev_app_distr in E. simpl in E.
    now apply (Hk (rev x') []).
  - rewrite split_aux_cons2. destruct (N.eqb c nl && N.eqb d nl) eqn:E.
    + constructor; [assumption|]. apply IHr; [reflexivity|discriminate].
    + apply IHdr.
      * simpl. apply has_sep_snoc; [assumption|].
        intros x' Ex Ec. subst c. apply (f_equal (@rev char)) in Ex.
        rewrite rev_involutive, rev_app_distr in Ex. simpl in Ex.
        now apply (Hk (rev x') (d :: r)).
      * intros x y Ex Ey. injection Ex as -> _. injection Ey as -> _.
        simpl in E. discriminate.
Qed.

Lemma paragraph_content_piece text p :
  In p (split text) -> paragraph_content (strip p) = contents [p].
Proof.
  intros Hp. rewrite paragraph_content_strip.
  unfold paragraph_content, split. rewrite split_no_sep; [reflexivity|].
  pose proof (split_aux_pieces text [] eq_refl ltac:(discriminate)) as H.
  rewrite List.Forall_forall in H. now apply H.
Qed.

End SplitFacts.

(** ** Joining the chunks keeps the paragraph content *)

Section RoundTrip.

Lemma tight_end m : tight m -> m = [] \/ last_nonspace m = true.
Proof.
  intros H. destruct m as [|c m]; [now left|right].
  apply tight_last_nonspace; [assumption|discriminate].
Qed.

Lemma paragraph_content_nil : paragraph_content [] = [].
Proof. reflexivity. Qed.

Lemma paragraph_content_buffer g : Forall tight g ->
  forall b, paragraph_content (buffer_of g ++ b)
            = concat (map paragraph_content g) ++ paragraph_content b.
Proof.
  induction 1 as [|s g Hs _ IH]; intros b; [reflexivity|].
  change (buffer_of (s :: g)) with ((s ++ sep) ++ buffer_of g).
  rewrite <- !app_assoc.
  rewrite paragraph_content_app_sep by now apply tight_end.
  rewrite IH. simpl. now rewrite app_assoc.
Qed.

Lemma paragraph_content_join cs : Forall tight cs ->
  paragraph_content (join cs) = concat (map paragraph_content cs).
Proof.
  induction 1 as [|x cs Hx Hcs IH]; [reflexivity|].
  destruct cs as [|y cs].
  - simpl. now rewrite app_nil_r.
  - change (join (x :: y :: cs)) with (x ++ sep ++ join (y :: cs)).
    rewrite paragraph_content_app_sep by now apply tight_end.
    now rewrite IH.
Qed.

Lemma concat_contents_singletons l :
  concat (map (fun p => contents [p]) l) = contents l.
Proof.
  induction l as [|p l IH]; [reflexivity|].
  simpl. rewrite IH. change (p :: l) with ([p] ++ l). now rewrite contents_app.
Qed.

Lemma concat_map_concat {A B} (f : A -> list B) (ls : list (list A)) :
  concat (map (fun g => concat (map f g)) ls) = concat (map f (concat ls)).
Proof.
  induction ls as [|g ls IH]; [reflexivity|].
  simpl. now rewrite IH, map_app, concat_app.
Qed.

Lemma paragraph_content_chunk_of g : Forall tight g ->
  paragraph_content (chunk_of g) = concat (map paragraph_content g).
Proof.
  intros H. unfold chunk_of. rewrite paragraph_content_strip.
  rewrite <- (app_nil_r (buffer_of g)), paragraph_content_buffer by assumption.
  now rewrite paragraph_content_nil, app_nil_r.
Qed.

Lemma paragraph_content_round_trip text chunk_size :
  paragraph_content (join (paragraph_chunk_split text chunk_size))
  = paragraph_content text.
Proof.
  destruct (paragraph_chunk_split_groups text chunk_size) as (groups & Hc & -> & _).
  assert (Ht : Forall (Forall tight) groups).
  { apply List.Forall_forall. intros g Hg. apply List.Forall_forall. intros s Hs.
    assert (Hin : In s (map strip (split text))).
    { rewrite <- Hc. apply List.in_concat. eauto. }
    apply List.in_map_iff in Hin as (p & <- & _). apply tight_strip. }
  rewrite paragraph_content_join.
  2:{ apply List.Forall_forall. intros c Hin.
      apply List.in_map_iff in Hin as (g & <- & _). apply tight_strip. }
  rewrite List.map_map.
  rewrite (List.map_ext_in _ (fun g => concat (map paragraph_content g))).
  2:{ intros g Hg. apply paragraph_content_chunk_of.
      rewrite List.Forall_forall in Ht. now apply Ht. }
  rewrite concat_map_concat, Hc, List.map_map.
  rewrite (List.map_ext_in _ (fun p => contents [p])).
  2:{ intros p Hp. now apply (paragraph_content_piece text). }
  apply concat_contents_singletons.
Qed.

End RoundTrip.

(** ** Facts about the nodes and the stage executors *)

Section PipelineFacts.

Context `{C : Collaborators}.

Lemma check_loop_llm_loop chunks : forall reports env,
  check_loop chunks reports env = llm_loop check_prompt (fun r => r) chunks reports env.
Proof.
  induction chunks as [|c rest IH]; intros reports env; simpl; [reflexivity|].
  unfold bind. destruct (llm_call _ env) as [[e|r] env1]; [reflexivity|apply IH].
Qed.

Lemma correct_loop_llm_loop chunks : forall acc env,
  correct_loop chunks acc env = llm_loop correct_prompt strip chunks acc env.
Proof.
  induction chunks as [|c rest IH]; intros acc env; simpl; [reflexivity|].
  unfold bind. destruct (llm_call _ env) as [[e|r] env1]; [reflexivity|apply IH].
Qed.

Lemma llm_loop_ok prompt post chunks : forall acc env res env',
  llm_loop prompt post chunks acc env = (inr res, env') ->
  env_state env' = env_state env
  /\ llm_calls (env_world env') = llm_calls (env_world env) ++ map prompt chunks
  /\ documents (env_world env') = documents (env_world env)
  /\ exists out, res = acc ++ out
       /\ loop_result prompt post chunks (length (llm_calls (env_world env))) out.
Proof.
  induction chunks as [|c rest IH]; intros acc env res env' Hrun.
  - injection Hrun as <- <-. repeat split; [now rewrite app_nil_r|].
    exists []. repeat split; [now rewrite app_nil_r|]. intros i chunk Hi. discriminate.
  - simpl in Hrun. unfold bind, llm_call in Hrun.
    destruct (llm_ainvoke (length (llm_calls (env_world env))) (prompt c))
      as [e|r] eqn:Hcall; [discriminate|].
    apply IH in Hrun as (Hst & Hcalls & Hdocs & out & -> & Hlen & Hout).
    simpl in Hst, Hcalls, Hdocs, Hlen, Hout.
    repeat split; try assumption.
    + rewrite Hcalls. now rewrite <- app_assoc.
    + exists (post r :: out). split; [now rewrite <- app_assoc|]. split.
      * simpl. now rewrite Hlen.
      * intros [|i] chunk Hi.
        -- injection Hi as <-. exists r. now rewrite Nat.add_0_r.
        -- destruct (Hout i chunk Hi) as (resp & Hresp & Ho).
           exists resp. split; [|exact Ho].
           rewrite length_app in Hresp. simpl in Hresp.
           now replace (length (llm_calls (env_world env)) + S i)%nat
             with (length (llm_calls (env_world env)) + 1 + i)%nat by lia.
Qed.

Lemma chunk_text_node_run env :
  chunk_text_node env =
  (inr tt, mkEnv (set_chunks (paragraph_chunk_split (st_original_text (env_state env)) 2000)
                             (env_state env)) (env_world env)).
Proof. reflexivity. Qed.

(** The Load node changes nothing but [original_text], and nothing at
    all when it raises. *)
Lemma load_document_node_ok env env' :
  load_document_node env = (inr tt, env') ->
  exists text, env' = mkEnv (set_original_text text (env_state env)) (env_world env).
Proof.
  unfold load_document_node, bind, get_state, lift, modify_state, raise, ret.
  destruct (endswith _ (lit ".pdf")).
  - destruct (PDFPlumberLoader_load _); [discriminate|].
    simpl. intros E. injection E as <-. eauto.
  - destruct (endswith _ (lit ".docx")); [|discriminate].
    destruct (Docx2txtLoader_load _); [discriminate|].
    simpl. intros E. injection E as <-. eauto.
Qed.

Lemma compliance_check_node_ok env env' :
  compliance_check_node env = (inr tt, env') ->
  exists reports,
    env' = mkEnv (set_compliance_reports reports (env_state env))
                 (mkWorld (llm_calls (env_world env) ++ map check_prompt (st_chunks (env_state env)))
                          (documents (env_world env)))
    /\ loop_result check_prompt (fun r => r) (st_chunks (env_state env))
                   (length (llm_calls (env_world env))) reports.
Proof.
  unfold compliance_check_node, bind, get_state, modify_state.
  rewrite check_loop_llm_loop.
  destruct (llm_loop _ _ _ _ env) as [[e|reports] env1] eqn:Hloop; [discriminate|].
  apply llm_loop_ok in Hloop as (Hst & Hcalls & Hdocs & out & -> & Hres).
  intros E. injection E as <-. exists out. split; [|exact Hres].
  destruct env1 as [s1 [c1 d1]]. simpl in *. now subst.
Qed.

Lemma correct_document_node_ok env env' :
  correct_document_node env = (inr tt, env') ->
  exists corrected,
    env' = mkEnv (set_final_corrected_doc (join corrected)
                    (set_corrected_chunks corrected (env_state env)))
                 (mkWorld (llm_calls (env_world env) ++ map correct_prompt (st_chunks (env_state env)))
                          (documents (env_world env)))
    /\ loop_result correct_prompt strip (st_chunks (env_state env))
                   (length (llm_calls (env_world env))) corrected.
Proof.
  unfold correct_document_node, bind, get_state, modify_state.
  rewrite correct_loop_llm_loop.
  destruct (llm_loop _ _ _ _ env) as [[e|corrected] env1] eqn:Hloop; [discriminate|].
  apply llm_loop_ok in Hloop as (Hst & Hcalls & Hdocs & out & -> & Hres).
  intros E. injection E as <-. exists out. split; [|exact Hres].
  destruct env1 as [s1 [c1 d1]]. simpl in *. now subst.
Qed.

Lemma save_corrected_doc_node_ok env env' :
  save_corrected_doc_node env = (inr tt, env') ->
  env_state env' = set_output_path (output_path_of (st_file_path (env_state env))) (env_state env)
  /\ llm_calls (env_world env') = llm_calls (env_world env).
Proof.
  unfold save_corrected_doc_node, bind, get_state, modify_state, lift, save_call, raise, ret.
  destruct (makedirs _); [discriminate|].
  destruct (Document_save _ _); [discriminate|].
  simpl. intros E. injection E as <-. split; reflexivity.
Qed.

(** A Check stage that returns. *)
Lemma compliance_workflow_ok file_path w state w' :
  ainvoke compliance_workflow (Some (ComplianceState_init file_path)) w = (inr state, w') ->
  st_chunks state = paragraph_chunk_split (st_original_text state) 2000
  /\ loop_result check_prompt (fun r => r) (st_chunks state)
                 (length (llm_calls w)) (st_compliance_reports state)
  /\ llm_calls w' = llm_calls w ++ map check_prompt (st_chunks state).
Proof.
  unfold ainvoke, compliance_workflow, bind.
  destruct (load_document_node _) as [[e|[]] env1] eqn:Hload; [discriminate|].
  apply load_document_node_ok in Hload as [text ->].
  rewrite chunk_text_node_run.
  destruct (compliance_check_node _) as [[e|[]] env3] eqn:Hcheck; [discriminate|].
  apply compliance_check_node_ok in Hcheck as (reports & -> & Hres).
  intros E. injection E as <- <-. simpl in *. auto.
Qed.

(** A Correct stage that returns. *)
Lemma correction_workflow_ok state0 w state w' :
  ainvoke correction_workflow state0 w = (inr state, w') ->
  exists s, state0 = Some s
    /\ st_chunks state = st_chunks s
    /\ st_compliance_reports state = st_compliance_reports s
    /\ loop_result correct_prompt strip (st_chunks s)
                   (length (llm_calls w)) (st_corrected_chunks state)
    /\ st_final_corrected_doc state = join (st_corrected_chunks state)
    /\ llm_calls w' = llm_calls w ++ map correct_prompt (st_chunks s).
Proof.
  unfold ainvoke, correction_workflow, bind.
  destruct state0 as [s|]; [|discriminate].
  destruct (correct_document_node _) as [[e|[]] env1] eqn:Hcorrect; [discriminate|].
  apply correct_document_node_ok in Hcorrect as (corrected & -> & Hres).
  destruct (save_corrected_doc_node _) as [[e|[]] env2] eqn:Hsave; [discriminate|].
  apply save_corrected_doc_node_ok in Hsave as [Hst Hcalls].
  intros E. injection E as <- <-. exists s. rewrite Hst, Hcalls. simpl. auto 10.
Qed.

(** The two ways a stage executor ends on a stored job. *)
Lemma process_compliance_check_cases file_id file_path file_storage w job :
  file_storage !! file_id = Some job ->
  (exists state w',
     ainvoke compliance_workflow (Some (ComplianceState_init file_path)) w = (inr state, w')
     /\ process_compliance_check file_id file_path file_storage w
        = (None, <[file_id := store_check_results state job]> file_storage, w'))
  \/ (exists e w',
     ainvoke compliance_workflow (Some (ComplianceState_init file_path)) w = (inl e, w')
     /\ process_compliance_check file_id file_path file_storage w
        = (None, <[file_id := set_error (exc_str e) (set_status error job)]> file_storage, w')).
Proof.
  intros Hjob. unfold process_compliance_check. rewrite Hjob.
  destruct (ainvoke _ _ w) as [[e|state] w']; [right|left]; eauto.
Qed.

Lemma process_document_correction_cases file_id file_storage w job :
  file_storage !! file_id = Some job ->
  (exists state w',
     ainvoke correction_workflow (job_state job) w = (inr state, w')
     /\ process_document_correction file_id file_storage w
        = (None, <[file_id := store_correction_results state job]> file_storage, w'))
  \/ (exists e w',
     ainvoke correction_workflow (job_state job) w = (inl e, w')
     /\ process_document_correction file_id file_storage w
        = (None, <[file_id := set_error (exc_str e) (set_status error job)]> file_storage, w')).
Proof.
  intros Hjob. unfold process_document_correction. rewrite Hjob.
  destruct (ainvoke _ _ w) as [[e|state] w']; [right|left]; eauto.
Qed.

End PipelineFacts.

(** ** Chunks of texts without blank paragraphs *)

Section ExactJoin.

Lemma buffer_of_join g : g <> [] -> buffer_of g = join g ++ sep.
Proof.
  induction g as [|s g IH]; [congruence|]. intros _.
  destruct g as [|s' g].
  - unfold buffer_of. simpl. now rewrite app_nil_r.
  - change (buffer_of (s :: s' :: g)) with ((s ++ sep) ++ buffer_of (s' :: g)).
    rewrite IH by discriminate.
    change (join (s :: s' :: g)) with (s ++ sep ++ join (s' :: g)).
    now rewrite <- !app_assoc.
Qed.

Lemma tight_app_sep x y :
  tight x -> x <> [] -> tight y -> y <> [] -> tight (x ++ sep ++ y).
Proof.
  intros [Hx _] Nx [_ Hy] Ny. split.
  - now apply lstrip_fixed_app.
  - rewrite !rev_app_distr, <- app_assoc. apply lstrip_fixed_app; [|assumption].
    intros E. apply Ny. apply (f_equal (@rev char)) in E.
    now rewrite rev_involutive in E.
Qed.

Lemma join_nonempty g : g <> [] -> Forall (fun s => s <> []) g -> join g <> [].
Proof.
  destruct g as [|s g]; [congruence|]. intros _ Hg.
  apply Forall_cons in Hg as [Hs _].
  destruct g as [|s' g]; [exact Hs|].
  change (join (s :: s' :: g)) with (s ++ sep ++ join (s' :: g)).
  destruct s; [congruence|discriminate].
Qed.

Lemma tight_join g : Forall tight g -> Forall (fun s => s <> []) g -> tight (join g).
Proof.
  induction 1 as [|s g Hs Hg IH]; intros Hne; [apply tight_nil|].
  apply Forall_cons in Hne as [Ns Ng].
  destruct g as [|s' g]; [exact Hs|].
  change (join (s :: s' :: g)) with (s ++ sep ++ join (s' :: g)).
  apply tight_app_sep; auto. apply join_nonempty; [discriminate|assumption].
Qed.

Lemma chunk_of_join g :
  g <> [] -> Forall tight g -> Forall (fun s => s <> []) g -> chunk_of g = join g.
Proof.
  intros Ng Ht Hne. unfold chunk_of. rewrite buffer_of_join by assumption.
  rewrite strip_app_space by apply all_space_sep.
  apply strip_tight. now apply tight_join.
Qed.

Lemma join_app l1 l2 :
  l1 <> [] -> l2 <> [] -> join (l1 ++ l2) = join l1 ++ sep ++ join l2.
Proof.
  induction l1 as [|x l1 IH]; [congruence|]. intros _ N2.
  destruct l1 as [|y l1].
  - destruct l2 as [|z l2]; [congruence|reflexivity].
  - change (join ((x :: y :: l1) ++ l2)) with (x ++ sep ++ join ((y :: l1) ++ l2)).
    rewrite IH by (discriminate || assumption).
    change (join (x :: y :: l1)) with (x ++ sep ++ join (y :: l1)).
    now rewrite <- !app_assoc.
Qed.

Lemma join_concat groups :
  Forall (fun g => g <> []) groups -> join (map join groups) = join (concat groups).
Proof.
  induction 1 as [|g groups Hg Hgs IH]; [reflexivity|].
  destruct groups as [|g' groups].
  - simpl. now rewrite app_nil_r.
  - change (join (map join (g :: g' :: groups)))
      with (join g ++ sep ++ join (map join (g' :: groups))).
    rewrite IH. change (concat (g :: g' :: groups)) with (g ++ concat (g' :: groups)).
    rewrite (join_app g); [reflexivity|assumption|].
    apply Forall_cons in Hgs as [Hg' _]. destruct g'; [congruence|discriminate].
Qed.

End ExactJoin.

(** ** The chunker: size bound, empty input, round trip *)

(** C2: the chunks are the trimmed paragraphs of the text, grouped in
    order.  Every chunk is at most [chunk_size] long, unless it is a single
    paragraph that is itself longer than [chunk_size]; and a paragraph
    longer than [chunk_size] is never grouped with another one: it is
    its own chunk, emitted whole. *)
Theorem chunk_size_bound (text : str) (chunk_size : Z) :
  exists groups : list (list str),
    concat groups = map strip (split text)
    /\ paragraph_chunk_split text chunk_size = map chunk_of groups
    /\ Forall (fun g =>
         (len (chunk_of g) <= chunk_size
          \/ exists s, g = [s] /\ chunk_of g = s /\ chunk_size < len s)
         /\ (forall s, In s g -> chunk_size < len s -> g = [s] /\ chunk_of g = s))
       groups.
Proof.
  destruct (paragraph_chunk_split_groups text chunk_size) as (groups & Hc & Hs & Hok).
  exists groups. split; [exact Hc|]. split; [exact Hs|].
  apply List.Forall_forall. intros g Hg.
  assert (Ht : forall s, In s g -> tight s).
  { intros s Hin.
    assert (Hm : In s (map strip (split text))).
    { rewrite <- Hc. apply List.in_concat. eauto. }
    apply List.in_map_iff in Hm as (p & <- & _). apply tight_strip. }
  rewrite List.Forall_forall in Hok. destruct (Hok g Hg) as [Hne [Hfit|[s ->]]].
  - split.
    + left. unfold chunk_of, len in *.
      pose proof (strip_length (buffer_of g)). lia.
    + intros s Hin Hbig. pose proof (len_buffer_member g s Hin). lia.
  - assert (Hs' : chunk_of [s] = s) by (apply chunk_of_single, Ht; now left).
    split.
    + destruct (Z_lt_le_dec chunk_size (len s)) as [Hbig|Hsmall].
      * right. exists s. auto.
      * left. now rewrite Hs'.
    + intros s' [<-|[]] _. auto.
Qed.

(** C3 (the code differs): on the empty string the chunker returns one
    chunk, the empty string, whatever [chunk_size] is: [split] yields one
    empty paragraph, the buffer then holds the delimiter and passes the
    test [if current_chunk]. *)
Theorem empty_input_one_empty_chunk (chunk_size : Z) :
  paragraph_chunk_split [] chunk_size = [[]]
  /\ length (paragraph_chunk_split [] chunk_size) = 1%nat.
Proof.
  assert (E : paragraph_chunk_split [] chunk_size = [[]]).
  { unfold paragraph_chunk_split. simpl.
    destruct (_ >? chunk_size); reflexivity. }
  split; [exact E|]. now rewrite E.
Qed.

(** C8: joining the chunks with the paragraph delimiter keeps the
    paragraph content of the text, that is its paragraphs, trimmed, in
    order, those that trim to nothing left out.  When no paragraph trims
    to nothing, the joined chunks are exactly the trimmed paragraphs
    joined by the delimiter. *)
Theorem join_chunks_paragraph_content (text : str) (chunk_size : Z) :
  paragraph_content (join (paragraph_chunk_split text chunk_size))
  = paragraph_content text
  /\ (Forall (fun p => strip p <> []) (split text) ->
      join (paragraph_chunk_split text chunk_size) = join (map strip (split text))).
Proof.
  split; [apply paragraph_content_round_trip|].
  intros Hne.
  destruct (paragraph_chunk_split_groups text chunk_size) as (groups & Hc & -> & Hok).
  assert (Hin : forall g s, In g groups -> In s g -> tight s /\ s <> []).
  { intros g s Hg Hs.
    assert (Hm : In s (map strip (split text))).
    { rewrite <- Hc. apply List.in_concat. eauto. }
    apply List.in_map_iff in Hm as (p & <- & Hp). split; [apply tight_strip|].
    rewrite List.Forall_forall in Hne. now apply Hne. }
  rewrite <- Hc, <- join_concat.
  - f_equal. apply List.map_ext_in. intros g Hg.
    rewrite List.Forall_forall in Hok. destruct (Hok g Hg) as [Ng _].
    apply chunk_of_join; [exact Ng| |]; apply List.Forall_forall; intros s Hs;
      now apply (Hin g s).
  - apply List.Forall_forall. intros g Hg.
    rewrite List.Forall_forall in Hok. now destruct (Hok g Hg).
Qed.

(** A blank paragraph at the start of a text is dropped from the joined
    chunks; the paragraph content is the same. *)
Example blank_paragraph_dropped :
  join (paragraph_chunk_split ([nl; nl] ++ lit "a") 2000) = lit "a"
  /\ join (map strip (split ([nl; nl] ++ lit "a"))) = [nl; nl] ++ lit "a"
  /\ paragraph_content ([nl; nl] ++ lit "a") = [lit "a"].
Proof. repeat split. Qed.

Lemma join_chunks_paragraph_content_witness :
  Forall (fun p => strip p <> []) (split (lit "Para one.

 Para two is. "))
  /\ join (paragraph_chunk_split (lit "Para one.

 Para two is. ") 20) = lit "Para one.

Para two is.".
Proof.
  split.
  - repeat constructor; discriminate.
  - rewrite (proj2 (join_chunks_paragraph_content _ 20)).
    + reflexivity.
    + repeat constructor; discriminate.
Defined.

(** ** The trigger boundary *)

Section Triggers.

Lemma status_eqb_eq a b : status_eqb a b = true <-> a = b.
Proof. destruct a, b; simpl; split; congruence. Qed.

Lemma status_eqb_neq a b : status_eqb a b = false <-> a <> b.
Proof. destruct a, b; simpl; split; congruence. Qed.

End Triggers.

(** C4: on a stored job, Correct is accepted exactly from
    [compliance_complete], and then schedules the Correct stage; from any
    other status the request gets HTTP 400 and schedules nothing. *)
Theorem correct_trigger_gate (file_id : str) (file_storage : gmap str Job) (job : Job) :
  file_storage !! file_id = Some job ->
  (job_status job = compliance_complete ->
     correct_document file_id file_storage
     = (inr (mkCorrectionResponse file_id
               (lit "Document correction started. Check status for progress.")),
        [ProcessDocumentCorrection file_id]))
  /\ (job_status job <> compliance_complete ->
     correct_document file_id file_storage
     = (inl (HTTPError 400
               (lit "File must be compliance checked first. Current status: "
                ++ status_str (job_status job))), []))
  /\ (accepted (correct_document file_id file_storage) = true
      <-> job_status job = compliance_complete).
Proof.
  intros Hjob. unfold correct_document. rewrite Hjob.
  destruct (status_eqb (job_status job) compliance_complete) eqn:E.
  - apply status_eqb_eq in E. simpl. repeat split; congruence.
  - apply status_eqb_neq in E. simpl. repeat split; try congruence.
    unfold accepted. simpl. discriminate.
Qed.

Lemma correct_trigger_gate_witness :
  accepted (correct_document demo_id (demo_store compliance_complete)) = true
  /\ accepted (correct_document demo_id (demo_store uploaded)) = false
  /\ snd (correct_document demo_id (demo_store uploaded)) = [].
Proof.
  split; [|split].
  - apply (correct_trigger_gate demo_id (demo_store compliance_complete)
             (demo_job compliance_complete)).
    + apply lookup_singleton_eq.
    + reflexivity.
  - apply not_true_is_false. intros Hacc.
    apply (correct_trigger_gate demo_id (demo_store uploaded) (demo_job uploaded)) in Hacc.
    + discriminate.
    + apply lookup_singleton_eq.
  - rewrite (proj1 (proj2 (correct_trigger_gate demo_id (demo_store uploaded)
                             (demo_job uploaded) (lookup_singleton_eq _ _)))).
    + reflexivity.
    + discriminate.
Defined.

(** C5, as the code has it: on a stored job, Check is accepted exactly
    from [uploaded] and [compliance_complete]; from [error], as from the
    other statuses, the request gets HTTP 400 and schedules nothing. *)
Theorem check_trigger_gate (file_id : str) (file_storage : gmap str Job) (job : Job) :
  file_storage !! file_id = Some job ->
  (job_status job = error ->
     check_compliance file_id file_storage
     = (inl (HTTPError 400 (lit "File is currently error")), []))
  /\ (accepted (check_compliance file_id file_storage) = true
      <-> job_status job = uploaded \/ job_status job = compliance_complete)
  /\ (accepted (check_compliance file_id file_storage) = true ->
      snd (check_compliance file_id file_storage)
      = [ProcessComplianceCheck file_id (job_file_path job)]).
Proof.
  intros Hjob. unfold check_compliance. rewrite Hjob.
  split; [intros ->; reflexivity|].
  destruct (job_status job); simpl; unfold accepted; simpl;
    (split; [split; [intros; auto; discriminate | intros [?|?]; congruence]
            | intros; auto; discriminate]).
Qed.

Lemma check_trigger_gate_witness :
  check_compliance demo_id (demo_store error)
  = (inl (HTTPError 400 (lit "File is currently error")), []).
Proof.
  apply (check_trigger_gate demo_id (demo_store error) (demo_job error)).
  - apply lookup_singleton_eq.
  - reflexivity.
Defined.

(** C5 as stated fails: a job in status [error] is refused where the
    same job in status [uploaded] is accepted. *)
Lemma check_trigger_error_refused :
  accepted (check_compliance demo_id (demo_store error)) = false
  /\ accepted (check_compliance demo_id (demo_store uploaded)) = true
  /\ snd (check_compliance demo_id (demo_store error)) = []
  /\ snd (check_compliance demo_id (demo_store uploaded))
     = [ProcessComplianceCheck demo_id demo_path].
Proof.
  unfold check_compliance, demo_store.
  rewrite !lookup_singleton_eq. repeat split.
Qed.

(** ** The Load node *)

(** C7: on a path that ends neither in [.pdf] nor in [.docx] the Load
    node raises [ValueError] and leaves the state, with its
    [original_text], and the world as they were; when the loader of the
    format returns pages, it sets [original_text] to the pages joined by
    the delimiter and changes nothing else; when the loader raises, so
    does the node, and the state is unchanged. *)
Theorem load_document_node_formats `{C : Collaborators} (env : Env) :
  let file_path := st_file_path (env_state env) in
  (endswith file_path (lit ".pdf") = false ->
   endswith file_path (lit ".docx") = false ->
   load_document_node env
   = (inl (ValueError (lit "Only PDF and DOCX supported.")), env))
  /\ (forall loader,
        (endswith file_path (lit ".pdf") = true /\ loader = PDFPlumberLoader_load)
        \/ (endswith file_path (lit ".pdf") = false
            /\ endswith file_path (lit ".docx") = true
            /\ loader = Docx2txtLoader_load) ->
        (forall docs, loader file_path = inr docs ->
           exists env',
             load_document_node env = (inr tt, env')
             /\ st_original_text (env_state env') = join docs
             /\ only_original_text_differs env env')
        /\ (forall e, loader file_path = inl e ->
              load_document_node env = (inl e, env))).
Proof.
  intros file_path. unfold load_document_node, bind, get_state, lift, raise, ret,
    modify_state. fold file_path. split.
  - intros -> ->. reflexivity.
  - intros loader [[-> ->]|(-> & -> & ->)]; split; intros x ->;
      try reflexivity; (eexists; split; [reflexivity|]; split; [reflexivity|]);
      unfold only_original_text_differs; simpl; repeat split.
Qed.

Lemma load_document_node_formats_witness :
  load_document_node (C := stub)
    (mkEnv (ComplianceState_init (lit "notes.txt")) empty_world)
  = (inl (ValueError (lit "Only PDF and DOCX supported.")),
     mkEnv (ComplianceState_init (lit "notes.txt")) empty_world)
  /\ exists env',
       load_document_node (C := stub)
         (mkEnv (ComplianceState_init (lit "a.docx")) empty_world) = (inr tt, env')
       /\ st_original_text (env_state env') = join stub_pages.
Proof.
  split.
  - apply (load_document_node_formats (C := stub)); reflexivity.
  - destruct (proj1 (proj2 (load_document_node_formats (C := stub)
                      (mkEnv (ComplianceState_init (lit "a.docx")) empty_world))
                    Docx2txtLoader_load (or_intror (conj eq_refl (conj eq_refl eq_refl))))
                stub_pages eq_refl) as (env' & Hrun & Htext & _).
    exists env'. split; [exact Hrun|exact Htext].
Defined.

(** ** Failure of a stage *)

(** C6: on a stored job, when a node of a stage raises, the nodes after
    it do not run (the world is the one the node left), the executor
    returns without raising, and the job gets the status [error] and the
    message of the exception in its [error] field; its other fields are
    those it had before the stage. *)
Theorem stage_failure_recorded `{C : Collaborators}
    (file_id : str) (file_storage : gmap str Job) (job : Job) (w : World) :
  file_storage !! file_id = Some job ->
  (forall file_path e env',
     (let env0 := mkEnv (ComplianceState_init file_path) w in
      load_document_node env0 = (inl e, env')
      \/ exists env1, load_document_node env0 = (inr tt, env1)
           /\ (chunk_text_node env1 = (inl e, env')
               \/ exists env2, chunk_text_node env1 = (inr tt, env2)
                    /\ compliance_check_node env2 = (inl e, env'))) ->
     exists j,
       process_compliance_check file_id file_path file_storage w
       = (None, <[file_id := j]> file_storage, env_world env')
       /\ records_failure job e j)
  /\ (forall e w',
     ((job_state job = None /\ e = empty_input /\ w' = w)
      \/ exists state env', job_state job = Some state /\ w' = env_world env'
           /\ (correct_document_node (mkEnv state w) = (inl e, env')
               \/ exists env1, correct_document_node (mkEnv state w) = (inr tt, env1)
                    /\ save_corrected_doc_node env1 = (inl e, env'))) ->
     exists j,
       process_document_correction file_id file_storage w
       = (None, <[file_id := j]> file_storage, w')
       /\ records_failure job e j).
Proof.
  intros Hjob.
  assert (Hrec : forall e, records_failure job e (set_error (exc_str e) (set_status error job))).
  { intros e. unfold records_failure. simpl. split; [reflexivity|].
    split; [reflexivity|]. split; [|repeat split].
    intros m [->| ->]; reflexivity. }
  split.
  - intros file_path e env' Hfail.
    exists (set_error (exc_str e) (set_status error job)). split; [|apply Hrec].
    unfold process_compliance_check. rewrite Hjob.
    unfold ainvoke, compliance_workflow, bind.
    destruct Hfail as [Hload|(env1 & Hload & [Hchunk|(env2 & Hchunk & Hcheck)])].
    + now rewrite Hload.
    + rewrite chunk_text_node_run in Hchunk. discriminate.
    + now rewrite Hload, Hchunk, Hcheck.
  - intros e w' Hfail.
    exists (set_error (exc_str e) (set_status error job)). split; [|apply Hrec].
    unfold process_document_correction. rewrite Hjob.
    change (job_state (set_status processing_correction job)) with (job_state job).
    unfold ainvoke, correction_workflow, bind.
    destruct Hfail as [(-> & -> & ->)|(state & env' & -> & -> & [Hcorrect|(env1 & Hcorrect & Hsave)])].
    + reflexivity.
    + now rewrite Hcorrect.
    + now rewrite Hcorrect, Hsave.
Qed.

Lemma stage_failure_recorded_witness :
  exists j,
    process_compliance_check (C := stub_failing) demo_id demo_path
      (demo_store uploaded) empty_world
    = (None, <[demo_id := j]> (demo_store uploaded),
       mkWorld [lit "Check the following text for compliance with English grammar, style, clarity, and professional writing rules. Return a structured JSON report:

Para one.

Para two is."] [])
    /\ job_status j = error
    /\ job_error j = Some (lit "quota exceeded").
Proof.
  destruct (proj1 (stage_failure_recorded (C := stub_failing) demo_id (demo_store uploaded)
                     (demo_job uploaded) empty_world (lookup_singleton_eq _ _))
                  demo_path (ExternalError (lit "quota exceeded"))
                  (snd (compliance_workflow (C := stub_failing)
                          (mkEnv (ComplianceState_init demo_path) empty_world))))
    as (j & Hrun & Hst & Herr & _).
  - right. eexists. split; [lazy; reflexivity|].
    right. eexists. split; lazy; reflexivity.
  - exists j. split; [exact Hrun|]. split; [exact Hst|exact Herr].
Defined.

(** ** Correspondence between chunks, reports and corrections *)

Section StageResults.

Context `{C : Collaborators}.

(** A job whose status is [compliance_complete] right after the Check
    executor holds the results of a Check stage that returned. *)
Lemma check_complete_inv file_id file_path file_storage w0 r1 s1 w1 j1 :
  process_compliance_check file_id file_path file_storage w0 = (r1, s1, w1) ->
  s1 !! file_id = Some j1 -> job_status j1 = compliance_complete ->
  exists job state,
    file_storage !! file_id = Some job
    /\ ainvoke compliance_workflow (Some (ComplianceState_init file_path)) w0
       = (inr state, w1)
    /\ j1 = store_check_results state job.
Proof.
  intros Hrun Hj1 Hst.
  destruct (file_storage !! file_id) as [job|] eqn:Hjob.
  - destruct (process_compliance_check_cases file_id file_path file_storage w0 job Hjob)
      as [(state & w' & Hwf & E)|(e & w' & Hwf & E)];
      rewrite E in Hrun; injection Hrun as <- <- <-;
      rewrite lookup_insert_eq in Hj1; injection Hj1 as <-.
    + eauto.
    + discriminate.
  - unfold process_compliance_check in Hrun. rewrite Hjob in Hrun.
    injection Hrun as <- <- <-. congruence.
Qed.

Lemma correction_complete_inv file_id file_storage w r2 s2 w2 job j2 :
  file_storage !! file_id = Some job ->
  process_document_correction file_id file_storage w = (r2, s2, w2) ->
  s2 !! file_id = Some j2 -> job_status j2 = correction_complete ->
  exists state,
    ainvoke correction_workflow (job_state job) w = (inr state, w2)
    /\ j2 = store_correction_results state job.
Proof.
  intros Hjob Hrun Hj2 Hst.
  destruct (process_document_correction_cases file_id file_storage w job Hjob)
    as [(state & w' & Hwf & E)|(e & w' & Hwf & E)];
    rewrite E in Hrun; injection Hrun as <- <- <-;
    rewrite lookup_insert_eq in Hj2; injection Hj2 as <-.
  - eauto.
  - discriminate.
Qed.

Lemma loop_result_member prompt post chunks n out c :
  loop_result prompt post chunks n out -> In c out -> exists response, c = post response.
Proof.
  intros [Hlen Hout] Hin.
  apply list_elem_of_In, list_elem_of_lookup in Hin as [i Hi].
  assert (Hlt : (i < length chunks)%nat).
  { rewrite <- Hlen. now apply lookup_lt_Some in Hi. }
  apply lookup_lt_is_Some in Hlt as [chunk Hchunk].
  destruct (Hout i chunk Hchunk) as (response & _ & Ho).
  exists response. congruence.
Qed.

Lemma tight_ends c a : tight c -> head c = Some a \/ last c = Some a -> isspace a = false.
Proof.
  intros [Hl Hr] [Hh|Hla].
  - destruct c as [|b c]; [discriminate|]. injection Hh as ->.
    now apply lstrip_head in Hl.
  - apply last_Some in Hla as [l' ->].
    rewrite rev_app_distr in Hr. simpl in Hr. now apply lstrip_head in Hr.
Qed.

End StageResults.

(** C1: when the Check stage has completed on a job and the Correct
    stage then completes on a job that holds the chunks, the reports and
    the state's chunks that Check left, whatever raw text it holds, the
    job's chunks are those computed by Check, the reports and the
    corrected chunks are as many as the chunks, the report at index [i]
    is the text service's answer to the analysis prompt, which ends with
    chunk [i], the corrected chunk at index [i] is its trimmed answer to
    the correction prompt, which holds chunk [i], and the prompts sent by
    Correct are the correction prompts of the stored chunks, in order. *)
Theorem correspondence_after_both_stages `{C : Collaborators}
    (file_id file_path : str) (file_storage file_storage' : gmap str Job)
    (w0 w1 w w2 : World) (r1 r2 : option Escaped)
    (s1 s2 : gmap str Job) (j1 j1' j2 : Job) :
  let analysis (chunk : str) : str :=
    lit "Check the following text for compliance with English grammar, style, clarity, and professional writing rules. Return a structured JSON report:

" ++ chunk in
  let correction (chunk : str) : str :=
    lit "Correct the following text to fully comply with English grammar, style, clarity, and professional writing rules.

INSTRUCTIONS:
1. Return ONLY the corrected text.
2. Do NOT add any explanations, summaries, or extra comments.
3. Keep the original paragraph structure.
4. Maintain the original meaning.

ORIGINAL TEXT:
" ++ chunk ++ lit "

CORRECTED TEXT:" in
  process_compliance_check file_id file_path file_storage w0 = (r1, s1, w1) ->
  s1 !! file_id = Some j1 -> job_status j1 = compliance_complete ->
  file_storage' !! file_id = Some j1' ->
  job_chunks j1' = job_chunks j1 ->
  job_compliance_reports j1' = job_compliance_reports j1 ->
  st_chunks <$> job_state j1' = st_chunks <$> job_state j1 ->
  process_document_correction file_id file_storage' w = (r2, s2, w2) ->
  s2 !! file_id = Some j2 -> job_status j2 = correction_complete ->
  job_chunks j2 = job_chunks j1
  /\ job_chunks j1 = paragraph_chunk_split (job_original_text j1) 2000
  /\ job_compliance_reports j2 = job_compliance_reports j1
  /\ length (job_compliance_reports j2) = length (job_chunks j2)
  /\ length (job_corrected_chunks j2) = length (job_chunks j2)
  /\ (forall (i : nat) (chunk : str), job_chunks j2 !! i = Some chunk ->
        (exists response,
           llm_ainvoke (length (llm_calls w0) + i) (analysis chunk) = inr response
           /\ job_compliance_reports j2 !! i = Some response)
        /\ (exists response,
           llm_ainvoke (length (llm_calls w) + i) (correction chunk) = inr response
           /\ job_corrected_chunks j2 !! i = Some (strip response)))
  /\ llm_calls w1 = llm_calls w0 ++ map analysis (job_chunks j1)
  /\ llm_calls w2 = llm_calls w ++ map correction (job_chunks j1).
Proof.
  intros analysis correction Hcheck Hj1 Hst1 Hstored Hsame_chunks Hsame_reports
    Hsame_state Hcorrect Hj2 Hst2.
  destruct (check_complete_inv _ _ _ _ _ _ _ _ Hcheck Hj1 Hst1)
    as (job & state & _ & Hwf1 & ->).
  destruct (correction_complete_inv _ _ _ _ _ _ _ _ Hstored Hcorrect Hj2 Hst2)
    as (state2 & Hwf2 & ->).
  apply compliance_workflow_ok in Hwf1 as (Hchunks & [Hlen1 Hrep] & Hcalls1).
  apply correction_workflow_ok in Hwf2
    as (s & Hs & Hch2 & _ & [Hlen2 Hcor] & _ & Hcalls).
  rewrite Hs in Hsame_state. simpl in Hsame_state, Hsame_chunks, Hsame_reports.
  injection Hsame_state as Hsame_state. rewrite Hsame_state in Hlen2, Hcor, Hcalls.
  simpl. rewrite Hsame_chunks, Hsame_reports.
  split; [reflexivity|]. split; [exact Hchunks|]. split; [reflexivity|].
  split; [exact Hlen1|]. split; [exact Hlen2|].
  split; [|split; [exact Hcalls1|exact Hcalls]].
  intros i chunk Hi. split; [exact (Hrep i chunk Hi)|exact (Hcor i chunk Hi)].
Qed.

(** C9: after a Correct stage that completed, the corrected chunks are
    the trimmed answers of the text service to the correction prompts of
    the chunks, in order; none starts or ends with white space; and
    [final_corrected_doc] is the corrected chunks joined by the paragraph
    delimiter. *)
Theorem corrected_chunks_stripped_and_joined `{C : Collaborators}
    (file_id : str) (file_storage : gmap str Job) (job : Job) (w w2 : World)
    (r : option Escaped) (s2 : gmap str Job) (j2 : Job) :
  file_storage !! file_id = Some job ->
  process_document_correction file_id file_storage w = (r, s2, w2) ->
  s2 !! file_id = Some j2 -> job_status j2 = correction_complete ->
  exists state, job_state job = Some state
    /\ length (job_corrected_chunks j2) = length (st_chunks state)
    /\ (forall (i : nat) (chunk : str), st_chunks state !! i = Some chunk ->
          exists response,
            llm_ainvoke (length (llm_calls w) + i) (correct_prompt chunk) = inr response
            /\ job_corrected_chunks j2 !! i = Some (strip response))
    /\ Forall (fun c => strip c = c
                 /\ forall a, head c = Some a \/ last c = Some a -> isspace a = false)
              (job_corrected_chunks j2)
    /\ job_final_corrected_doc j2 = join (job_corrected_chunks j2).
Proof.
  intros Hjob Hrun Hj2 Hst.
  destruct (correction_complete_inv _ _ _ _ _ _ _ _ Hjob Hrun Hj2 Hst)
    as (state2 & Hwf & ->).
  apply correction_workflow_ok in Hwf
    as (s & Hs & _ & _ & Hres & Hfinal & _).
  exists s. simpl. split; [exact Hs|]. split; [apply Hres|]. split; [apply Hres|].
  split; [|exact Hfinal].
  apply List.Forall_forall. intros c Hc.
  destruct (loop_result_member _ _ _ _ _ c Hres Hc) as [response ->].
  split; [apply strip_idem|]. intros a. apply tight_ends, tight_strip.
Qed.

Lemma correspondence_after_both_stages_witness :
  job_original_text demo_retexted_job = lit "another text"
  /\ job_status demo_recorrected_job = correction_complete
  /\ job_chunks demo_recorrected_job = [repeat (chr "x") 1990; lit "Para two is."]
  /\ job_chunks demo_recorrected_job = job_chunks demo_checked_job
  /\ length (job_compliance_reports demo_recorrected_job) = 2%nat
  /\ length (job_corrected_chunks demo_recorrected_job) = 2%nat
  /\ llm_calls demo_recorrected.2
     = llm_calls demo_checked.2 ++ map correct_prompt (job_chunks demo_checked_job).
Proof.
  assert (Hc : job_chunks demo_recorrected_job
               = [repeat (chr "x") 1990; lit "Para two is."])
    by (vm_compute; reflexivity).
  pose proof (correspondence_after_both_stages (C := stub)
                demo_id demo_path (demo_store uploaded) demo_retexted_store
                empty_world demo_checked.2 demo_checked.2 demo_recorrected.2
                demo_checked.1.1 demo_recorrected.1.1
                demo_checked.1.2 demo_recorrected.1.2
                demo_checked_job demo_retexted_job demo_recorrected_job) as T.
  destruct T as (E1 & _ & _ & L1 & L2 & _ & _ & Hcalls); try (vm_compute; reflexivity).
  split; [reflexivity|].
  split; [vm_compute; reflexivity|]. split; [exact Hc|]. split; [exact E1|].
  split; [rewrite L1, Hc; reflexivity|].
  split; [rewrite L2, Hc; reflexivity|exact Hcalls].
Defined.

Lemma corrected_chunks_stripped_and_joined_witness :
  job_corrected_chunks demo_corrected_job = [lit "reply !!"; lit "reply !!!"]
  /\ job_final_corrected_doc demo_corrected_job = lit "reply !!

reply !!!".
Proof.
  assert (Hc : job_corrected_chunks demo_corrected_job = [lit "reply !!"; lit "reply !!!"])
    by (vm_compute; reflexivity).
  split; [exact Hc|].
  destruct (corrected_chunks_stripped_and_joined (C := stub)
              demo_id demo_checked.1.2 demo_checked_job demo_checked.2 demo_corrected.2
              demo_corrected.1.1 demo_corrected.1.2 demo_corrected_job)
    as (state & _ & _ & _ & _ & Hfinal); [vm_compute; reflexivity ..|].
  rewrite Hfinal, Hc. reflexivity.
Defined.

(** ** The status query and a recorded error *)

(** C10: on a stored job whose [error] field holds a non-empty message,
    the status query reports that message whatever the status is.  The
    stage executors never set the field back to [None]: a stage that
    completes leaves it as it is, so after a Check stage that completes
    the query answers with the status [compliance_complete] and the old
    error message. *)
Theorem stale_error_reported `{C : Collaborators}
    (file_id : str) (file_storage : gmap str Job) (job : Job) (m : str) :
  file_storage !! file_id = Some job ->
  job_error job = Some m -> m <> [] ->
  get_status file_id file_storage
  = inr (mkStatusResponse file_id (job_status job) (Some (lit "Error: " ++ m))
           (job_compliance_reports job))
  /\ (forall file_path w r s1 w1 j1,
        process_compliance_check file_id file_path file_storage w = (r, s1, w1) ->
        s1 !! file_id = Some j1 ->
        is_Some (job_error j1)
        /\ (job_status j1 = compliance_complete ->
            job_error j1 = Some m
            /\ exists response,
                 get_status file_id s1 = inr response
                 /\ sr_status response = compliance_complete
                 /\ sr_message response = Some (lit "Error: " ++ m)))
  /\ (forall w r s1 w1 j1,
        process_document_correction file_id file_storage w = (r, s1, w1) ->
        s1 !! file_id = Some j1 ->
        is_Some (job_error j1)
        /\ (job_status j1 = correction_complete -> job_error j1 = Some m)).
Proof.
  intros Hjob Herr Hm.
  assert (Hmsg : forall j, job_error j = Some m ->
            status_message j = Some (lit "Error: " ++ m)).
  { intros j Hj. unfold status_message, error_truthy. rewrite Hj.
    destruct m; [congruence|reflexivity]. }
  split; [|split].
  - unfold get_status. rewrite Hjob. now rewrite Hmsg.
  - intros file_path w r s1 w1 j1 Hrun Hj1.
    destruct (process_compliance_check_cases file_id file_path file_storage w job Hjob)
      as [(state & w' & _ & E)|(e & w' & _ & E)];
      rewrite E in Hrun; injection Hrun as <- <- <-;
      rewrite lookup_insert_eq in Hj1; injection Hj1 as <-.
    + split; [simpl; rewrite Herr; eauto|]. intros _. split; [exact Herr|].
      unfold get_status. rewrite lookup_insert_eq. eexists. split; [reflexivity|].
      split; [reflexivity|]. simpl. now apply Hmsg.
    + split; [simpl; eauto|]. discriminate.
  - intros w r s1 w1 j1 Hrun Hj1.
    destruct (process_document_correction_cases file_id file_storage w job Hjob)
      as [(state & w' & _ & E)|(e & w' & _ & E)];
      rewrite E in Hrun; injection Hrun as <- <- <-;
      rewrite lookup_insert_eq in Hj1; injection Hj1 as <-.
    + split; [simpl; rewrite Herr; eauto|]. intros _. exact Herr.
    + split; [simpl; eauto|]. discriminate.
Qed.

Lemma stale_error_reported_witness :
  get_status demo_id demo_failed_store
  = inr (mkStatusResponse demo_id error (Some (lit "Error: quota exceeded")) [])
  /\ exists response,
       get_status demo_id demo_rechecked.1.2 = inr response
       /\ sr_status response = compliance_complete
       /\ sr_message response = Some (lit "Error: quota exceeded").
Proof.
  destruct (stale_error_reported (C := stub_short) demo_id demo_failed_store
              demo_failed_job (lit "quota exceeded")
              (lookup_singleton_eq _ _) eq_refl ltac:(discriminate))
    as (Hq & Hcheck & _).
  split; [exact Hq|].
  apply (Hcheck demo_path empty_world demo_rechecked.1.1 demo_rechecked.1.2
           demo_rechecked.2
           (default demo_failed_job (demo_rechecked.1.2 !! demo_id)));
    vm_compute; reflexivity.
Defined.

(** ** Further properties of the chunker *)

Section ChunkerShape.

Lemma length_concat_nonempty {A} (groups : list (list A)) :
  Forall (fun g => g <> []) groups -> (length groups <= length (concat groups))%nat.
Proof.
  induction 1 as [|g groups Hg _ IH]; simpl; [lia|].
  rewrite length_app. destruct g; [congruence|simpl; lia].
Qed.

Lemma singletons_concat {A} (groups : list (list A)) :
  Forall (fun g => exists s, g = [s]) groups ->
  groups = map (fun s => [s]) (concat groups).
Proof.
  induction 1 as [|g groups [s ->] _ IH]; simpl; [reflexivity|]. now rewrite <- IH.
Qed.

Lemma len_buffer_of_nonempty g : g <> [] -> 2 <= len (buffer_of g).
Proof.
  destruct g as [|s g]; [congruence|]. intros _.
  pose proof (len_buffer_member (s :: g) s (or_introl eq_refl)).
  unfold len in *. lia.
Qed.

Lemma group_members_tight text groups g s :
  concat groups = map strip (split text) -> In g groups -> In s g -> tight s.
Proof.
  intros Hc Hg Hs.
  assert (Hm : In s (map strip (split text))).
  { rewrite <- Hc. apply List.in_concat. eauto. }
  apply List.in_map_iff in Hm as (p & <- & _). apply tight_strip.
Qed.

Lemma len_buffer_of_app a b :
  len (buffer_of (a ++ b)) = len (buffer_of a) + len (buffer_of b).
Proof.
  unfold len, buffer_of. rewrite map_app, concat_app, length_app.
  apply Nat2Z.inj_add.
Qed.

Lemma buffer_of_single s : buffer_of [s] = s ++ sep.
Proof. unfold buffer_of. simpl. apply app_nil_r. Qed.

(** While everything read fits, the loop only appends to the buffer. *)
Lemma fold_step_fits chunk_size l : forall pre,
  len (buffer_of (map strip (pre ++ l))) <= chunk_size ->
  fold_left (step chunk_size) l ([], buffer_of (map strip pre))
  = ([], buffer_of (map strip (pre ++ l))).
Proof.
  induction l as [|p l IH]; intros pre Hfit.
  - now rewrite app_nil_r.
  - simpl. replace (pre ++ p :: l) with ((pre ++ [p]) ++ l) in *
      by now rewrite <- app_assoc.
    assert (Hstep : len (buffer_of (map strip pre)) + len (strip p ++ sep)
                    <= chunk_size).
    { revert Hfit. rewrite !map_app, !len_buffer_of_app.
      change (map strip [p]) with [strip p]. rewrite buffer_of_single.
      unfold len. lia. }
    replace (len (buffer_of (map strip pre)) + len (strip p ++ sep) >? chunk_size)
      with false by (symmetry; rewrite Z.gtb_ltb; apply Z.ltb_ge; exact Hstep).
    rewrite <- buffer_of_snoc.
    replace (map strip pre ++ [strip p]) with (map strip (pre ++ [p]))
      by now rewrite map_app.
    now apply IH.
Qed.

Lemma fold_step_fits_all chunk_size l :
  len (buffer_of (map strip l)) <= chunk_size ->
  fold_left (step chunk_size) l (([], []) : loop_state)
  = ([], buffer_of (map strip l)).
Proof. intros Hfit. exact (fold_step_fits chunk_size l [] Hfit). Qed.

End ChunkerShape.

(** X1: every chunk is trimmed: stripping it changes nothing, and it
    neither starts nor ends with a white-space character. *)
Theorem chunks_are_stripped (text : str) (chunk_size : Z) :
  Forall (fun c => strip c = c
            /\ forall a, head c = Some a \/ last c = Some a -> isspace a = false)
         (paragraph_chunk_split text chunk_size).
Proof.
  destruct (paragraph_chunk_split_groups text chunk_size) as (groups & _ & -> & _).
  apply List.Forall_forall. intros c Hc.
  apply List.in_map_iff in Hc as (g & <- & _). unfold chunk_of.
  split; [apply strip_idem|]. intros a. apply tight_ends, tight_strip.
Qed.

(** X2: the chunker returns at least one chunk, also for the empty
    text, and never more chunks than the text has paragraphs. *)
Theorem chunk_count_bounds (text : str) (chunk_size : Z) :
  (1 <= length (paragraph_chunk_split text chunk_size)
   <= length (split text))%nat.
Proof.
  destruct (paragraph_chunk_split_groups text chunk_size) as (groups & Hc & -> & Hok).
  rewrite length_map.
  assert (Hne : Forall (fun g : list str => g <> []) groups).
  { eapply Forall_impl; [exact Hok|]. now intros g [Hg _]. }
  pose proof (length_concat_nonempty groups Hne) as Hle.
  rewrite Hc, length_map in Hle. split; [|exact Hle].
  destruct groups as [|g groups]; [|simpl; lia].
  simpl in Hc. symmetry in Hc. apply map_eq_nil in Hc.
  now apply split_aux_nonempty in Hc.
Qed.

(** X3: with a [chunk_size] below 2 nothing fits beside the delimiter:
    every paragraph is a chunk of its own, and the chunks are the
    trimmed paragraphs. *)
Theorem small_chunk_size_splits_all (text : str) (chunk_size : Z) :
  chunk_size < 2 ->
  paragraph_chunk_split text chunk_size = map strip (split text).
Proof.
  intros Hsmall.
  destruct (paragraph_chunk_split_groups text chunk_size) as (groups & Hc & -> & Hok).
  assert (Hsing : Forall (fun g : list str => exists s, g = [s]) groups).
  { eapply Forall_impl; [exact Hok|]. intros g [Hne [Hfit|Hs]]; [|exact Hs].
    pose proof (len_buffer_of_nonempty g Hne). lia. }
  rewrite <- Hc. rewrite (singletons_concat groups Hsing) at 1.
  rewrite List.map_map. etransitivity; [|apply List.map_id].
  apply List.map_ext_in. intros s Hs.
  apply chunk_of_single. rewrite Hc in Hs.
  apply List.in_map_iff in Hs as (p & <- & _). apply tight_strip.
Qed.

Lemma small_chunk_size_splits_all_witness :
  paragraph_chunk_split (lit "a

b c

 d") 1 = [lit "a"; lit "b c"; lit "d"].
Proof. rewrite small_chunk_size_splits_all; [reflexivity|lia]. Defined.

(** X4: when the trimmed paragraphs, each followed by the delimiter,
    fit [chunk_size] together, the chunker returns one chunk: that
    buffer, trimmed. *)
Theorem fitting_text_one_chunk (text : str) (chunk_size : Z) :
  len (buffer_of (map strip (split text))) <= chunk_size ->
  paragraph_chunk_split text chunk_size = [chunk_of (map strip (split text))].
Proof.
  intros Hfit. unfold paragraph_chunk_split. cbv zeta.
  rewrite (fold_step_fits_all chunk_size (split text) Hfit).
  destruct (truthy (buffer_of (map strip (split text)))) eqn:Ht; [reflexivity|].
  apply buffer_of_falsy, map_eq_nil in Ht. now apply split_aux_nonempty in Ht.
Qed.

Lemma fitting_text_one_chunk_witness :
  paragraph_chunk_split (lit "a

b c

 d") 13 = [lit "a

b c

d"].
Proof. rewrite fitting_text_one_chunk; [reflexivity|vm_compute; discriminate]. Defined.

(** X5: a text without the delimiter is one paragraph; it is returned
    as one trimmed chunk whatever [chunk_size] is, however long it is. *)
Theorem no_delimiter_one_chunk (text : str) (chunk_size : Z) :
  has_sep text = false ->
  paragraph_chunk_split text chunk_size = [strip text].
Proof.
  intros Hno. unfold paragraph_chunk_split, split. cbv zeta.
  rewrite (split_no_sep text Hno []). change (rev [] ++ text) with text.
  assert (E : strip (strip text ++ sep) = strip text).
  { rewrite strip_app_space by apply all_space_sep. apply strip_idem. }
  assert (T : truthy (strip text ++ sep) = true) by now destruct (strip text).
  unfold fold_left, step. cbn [truthy].
  destruct (_ >? chunk_size); cbn [app]; rewrite T, E; reflexivity.
Qed.

Lemma no_delimiter_one_chunk_witness :
  paragraph_chunk_split (lit " one long
paragraph ") 5 = [lit "one long
paragraph"].
Proof. rewrite no_delimiter_one_chunk; reflexivity. Defined.

(** ** Further properties of the nodes *)

Section NodeFailure.

Context `{C : Collaborators}.

Lemma llm_loop_raises prompt post chunks : forall acc env e env',
  llm_loop prompt post chunks acc env = (inl e, env') ->
  loop_failure prompt chunks env e env'.
Proof.
  induction chunks as [|c rest IH]; intros acc env e env' Hrun; [discriminate|].
  simpl in Hrun. unfold bind, llm_call in Hrun.
  destruct (llm_ainvoke (length (llm_calls (env_world env))) (prompt c))
    as [e0|r] eqn:Hcall.
  - injection Hrun as <- <-. repeat split. exists 0%nat, c. repeat split.
    + now rewrite Nat.add_0_r.
    + intros i c' Hi. lia.
  - apply IH in Hrun as (Hst & Hdocs & k & chunk & Hk & Hfail & Hbefore & Hcalls).
    simpl in Hst, Hdocs, Hfail, Hbefore, Hcalls.
    rewrite length_app in Hfail, Hbefore. simpl in Hfail, Hbefore.
    repeat split; try assumption. exists (S k), chunk. repeat split.
    + exact Hk.
    + now replace (length (llm_calls (env_world env)) + S k)%nat
        with (length (llm_calls (env_world env)) + 1 + k)%nat by lia.
    + intros [|i] c' Hi Hc'.
      * injection Hc' as <-. exists r. now rewrite Nat.add_0_r.
      * destruct (Hbefore i c' ltac:(lia) Hc') as [response Hr]. exists response.
        now replace (length (llm_calls (env_world env)) + S i)%nat
          with (length (llm_calls (env_world env)) + 1 + i)%nat by lia.
    + rewrite Hcalls. now rewrite <- app_assoc.
Qed.

Lemma save_corrected_doc_node_documents env env' :
  save_corrected_doc_node env = (inr tt, env') ->
  documents (env_world env')
  = documents (env_world env)
    ++ [(output_path_of (st_file_path (env_state env)),
         docx_paragraphs (st_final_corrected_doc (env_state env)))].
Proof.
  unfold save_corrected_doc_node, bind, get_state, modify_state, lift, save_call, raise, ret.
  destruct (makedirs _); [discriminate|].
  destruct (Document_save _ _); [discriminate|].
  simpl. intros E. injection E as <-. reflexivity.
Qed.

Lemma correction_workflow_documents s w state w' :
  ainvoke correction_workflow (Some s) w = (inr state, w') ->
  st_output_path state = output_path_of (st_file_path s)
  /\ documents w'
     = documents w ++ [(output_path_of (st_file_path s),
                        paragraph_content (st_final_corrected_doc state))].
Proof.
  unfold ainvoke, correction_workflow, bind.
  destruct (correct_document_node _) as [[e|[]] env1] eqn:Hcorrect; [discriminate|].
  apply correct_document_node_ok in Hcorrect as (corrected & -> & Hres).
  destruct (save_corrected_doc_node _) as [[e|[]] env2] eqn:Hsave; [discriminate|].
  pose proof (save_corrected_doc_node_ok _ _ Hsave) as [Hst _].
  apply save_corrected_doc_node_documents in Hsave.
  intros E. injection E as <- <-. rewrite Hst, Hsave. simpl. auto.
Qed.

End NodeFailure.

(** X6: when the text service raises during the Analyze or the Rewrite
    node, the node raises at the first failing chunk: the chunks
    before it were answered, no prompt is sent after it, and the state
    is as before the node, without the results gathered so far. *)
Theorem text_service_failure_stops_node `{C : Collaborators}
    (env env' : Env) (e : Exception) :
  (compliance_check_node env = (inl e, env') ->
   loop_failure check_prompt (st_chunks (env_state env)) env e env')
  /\ (correct_document_node env = (inl e, env') ->
      loop_failure correct_prompt (st_chunks (env_state env)) env e env').
Proof.
  split.
  - unfold compliance_check_node, bind, get_state, modify_state.
    rewrite check_loop_llm_loop.
    destruct (llm_loop _ _ _ _ env) as [[e0|reports] env1] eqn:Hloop; [|discriminate].
    intros E. injection E as <- <-. now apply llm_loop_raises in Hloop.
  - unfold correct_document_node, bind, get_state, modify_state.
    rewrite correct_loop_llm_loop.
    destruct (llm_loop _ _ _ _ env) as [[e0|corrected] env1] eqn:Hloop; [|discriminate].
    intros E. injection E as <- <-. now apply llm_loop_raises in Hloop.
Qed.

Lemma text_service_failure_stops_node_witness :
  st_compliance_reports
    (env_state (snd (compliance_check_node (C := stub_second_fails) three_chunks_env)))
  = []
  /\ llm_calls (env_world (snd (compliance_check_node (C := stub_second_fails)
                                 three_chunks_env)))
     = [check_prompt (lit "one"); check_prompt (lit "two")].
Proof.
  destruct (proj1 (text_service_failure_stops_node (C := stub_second_fails)
                     three_chunks_env
                     (snd (compliance_check_node (C := stub_second_fails) three_chunks_env))
                     (ExternalError (lit "quota exceeded"))) eq_refl)
    as (Hst & _ & _).
  split; [now rewrite Hst|reflexivity].
Defined.

(** ** The output path and the document written *)

Section OutputPath.

Lemma take_until_stop stop a b : ~ In stop a -> take_until stop (a ++ stop :: b) = a.
Proof.
  induction a as [|c a IH]; intros Hno; simpl.
  - now rewrite N.eqb_refl.
  - destruct (N.eqb c stop) eqn:E.
    + apply N.eqb_eq in E. subst c. exfalso. apply Hno. now left.
    + f_equal. apply IH. intros Hin. apply Hno. now right.
Qed.

Lemma take_until_absent stop a : ~ In stop a -> take_until stop a = a.
Proof.
  induction a as [|c a IH]; intros Hno; simpl; [reflexivity|].
  destruct (N.eqb c stop) eqn:E.
  - apply N.eqb_eq in E. subst c. exfalso. apply Hno. now left.
  - f_equal. apply IH. intros Hin. apply Hno. now right.
Qed.

Lemma basename_after_slash dir name :
  ~ In (chr "/") name -> basename (dir ++ chr "/" :: name) = name.
Proof.
  intros Hno. unfold basename. rewrite rev_app_distr. simpl. rewrite <- app_assoc.
  simpl. rewrite take_until_stop; [apply rev_involutive|].
  intros Hin. apply Hno. now apply List.in_rev.
Qed.

End OutputPath.

(** X7: for a path whose last component is [stem.rest], with no dot in
    [stem], the output path is [output/corrected_stem.docx]: the
    directory and everything after the first dot of the name are
    dropped. *)
Theorem output_path_of_stem (dir stem rest : str) :
  ~ In (chr "/") stem -> ~ In (chr ".") stem -> ~ In (chr "/") rest ->
  output_path_of (dir ++ lit "/" ++ stem ++ lit "." ++ rest)
  = lit "output/corrected_" ++ stem ++ lit ".docx".
Proof.
  intros Hs1 Hs2 Hr. unfold output_path_of, file_id_of.
  change (dir ++ lit "/" ++ stem ++ lit "." ++ rest)
    with (dir ++ chr "/" :: (stem ++ chr "." :: rest)).
  rewrite basename_after_slash.
  - now rewrite take_until_stop.
  - intros Hin. apply List.in_app_or in Hin as [Hin|[Hin|Hin]]; auto. discriminate.
Qed.

Lemma output_path_of_stem_witness :
  output_path_of (lit "temp_uploads/7f3a_report.v2.pdf")
  = lit "output/corrected_7f3a_report.docx".
Proof.
  apply (output_path_of_stem (lit "temp_uploads") (lit "7f3a_report") (lit "v2.pdf"));
    intros Hin; repeat (destruct Hin as [Hin|Hin]; [discriminate|]); exact Hin.
Defined.

(** X8: a Correct stage that completes writes one document, at the
    output path derived from the state's file path, which it stores in
    the job; the paragraphs written are the non-empty trimmed paragraphs
    of the corrected chunks, in order. *)
Theorem correction_writes_document `{C : Collaborators}
    (file_id : str) (file_storage : gmap str Job) (job : Job) (w w2 : World)
    (r : option Escaped) (s2 : gmap str Job) (j2 : Job) :
  file_storage !! file_id = Some job ->
  process_document_correction file_id file_storage w = (r, s2, w2) ->
  s2 !! file_id = Some j2 -> job_status j2 = correction_complete ->
  exists state, job_state job = Some state
    /\ job_output_path j2 = output_path_of (st_file_path state)
    /\ documents w2
       = documents w
         ++ [(output_path_of (st_file_path state),
              concat (map paragraph_content (job_corrected_chunks j2)))].
Proof.
  intros Hjob Hrun Hj2 Hst.
  destruct (correction_complete_inv _ _ _ _ _ _ _ _ Hjob Hrun Hj2 Hst)
    as (state2 & Hwf & ->).
  pose proof (correction_workflow_ok _ _ _ _ Hwf)
    as (s & Hs & _ & _ & Hres & Hfinal & _).
  rewrite Hs in Hwf. apply correction_workflow_documents in Hwf as [Hpath Hdocs].
  exists s. simpl. split; [exact Hs|]. split; [exact Hpath|].
  rewrite Hdocs, Hfinal. rewrite paragraph_content_join; [reflexivity|].
  apply List.Forall_forall. intros c Hc.
  destruct (loop_result_member _ _ _ _ _ c Hres Hc) as [response ->].
  apply tight_strip.
Qed.

Lemma correction_writes_document_witness :
  documents demo_corrected.2
  = [(lit "output/corrected_job-1_report.docx", [lit "reply !!"; lit "reply !!!"])].
Proof.
  destruct (correction_writes_document (C := stub)
              demo_id demo_checked.1.2 demo_checked_job demo_checked.2 demo_corrected.2
              demo_corrected.1.1 demo_corrected.1.2 demo_corrected_job)
    as (state & Hs & _ & Hdocs); [vm_compute; reflexivity ..|].
  vm_compute in Hs. injection Hs as <-.
  rewrite Hdocs. vm_compute. reflexivity.
Defined.

(** ** Further properties of the stage executors *)

Section ExecutorFacts.

Context `{C : Collaborators}.

(** The Load node reads nothing from the world. *)
Lemma load_document_node_world s w w0 :
  load_document_node (mkEnv s w)
  = match load_document_node (mkEnv s w0) with
    | (r, env) => (r, mkEnv (env_state env) w)
    end.
Proof.
  unfold load_document_node, bind, get_state, lift, modify_state, raise, ret. simpl.
  destruct (endswith _ (lit ".pdf")).
  - destruct (PDFPlumberLoader_load _); reflexivity.
  - destruct (endswith _ (lit ".docx")); [|reflexivity].
    destruct (Docx2txtLoader_load _); reflexivity.
Qed.

(** A Check stage that returns has loaded the text with the Load node
    and kept the path. *)
Lemma compliance_workflow_load file_path w state w' :
  ainvoke compliance_workflow (Some (ComplianceState_init file_path)) w = (inr state, w') ->
  exists env1,
    load_document_node (mkEnv (ComplianceState_init file_path) w) = (inr tt, env1)
    /\ st_original_text state = st_original_text (env_state env1)
    /\ st_file_path state = file_path.
Proof.
  unfold ainvoke, compliance_workflow, bind.
  destruct (load_document_node _) as [[e|[]] env1] eqn:Hload; [discriminate|].
  pose proof (load_document_node_ok _ _ Hload) as [text ->].
  rewrite chunk_text_node_run.
  destruct (compliance_check_node _) as [[e|[]] env3] eqn:Hcheck; [discriminate|].
  apply compliance_check_node_ok in Hcheck as (reports & -> & _).
  intros E. injection E as <- <-. eexists. split; [reflexivity|]. split; reflexivity.
Qed.

Lemma loop_result_deterministic prompt post chunks n m out out' :
  (forall a b p, llm_ainvoke a p = llm_ainvoke b p) ->
  loop_result prompt post chunks n out -> loop_result prompt post chunks m out' ->
  out = out'.
Proof.
  intros Hdet [Hlen Hout] [Hlen' Hout']. apply list_eq. intros i.
  destruct (chunks !! i) as [chunk|] eqn:Hi.
  - destruct (Hout i chunk Hi) as (r & Hr & ->).
    destruct (Hout' i chunk Hi) as (r' & Hr' & ->).
    rewrite (Hdet (n + i)%nat (m + i)%nat) in Hr. congruence.
  - apply lookup_ge_None in Hi.
    rewrite (proj2 (lookup_ge_None out i)) by lia.
    now rewrite (proj2 (lookup_ge_None out' i)) by lia.
Qed.

Lemma paragraph_chunk_split_nonempty text chunk_size :
  paragraph_chunk_split text chunk_size <> [].
Proof.
  destruct (paragraph_chunk_split_groups text chunk_size) as (groups & Hc & -> & _).
  destruct groups as [|g groups]; [|discriminate].
  simpl in Hc. symmetry in Hc. apply map_eq_nil in Hc.
  now apply split_aux_nonempty in Hc.
Qed.

End ExecutorFacts.

Lemma executor_frame_insert file_id file_storage w done job j w' :
  file_storage !! file_id = Some job ->
  job_file_path j = job_file_path job ->
  job_original_filename j = job_original_filename job ->
  job_status j = done \/ job_status j = error ->
  executor_frame file_id file_storage w done (None, <[file_id := j]> file_storage, w').
Proof.
  intros Hjob Hp Hn Hs. unfold executor_frame. simpl. split; [|split; [|split]].
  - apply dom_insert_lookup_L. eauto.
  - intros other Hne. now apply lookup_insert_ne.
  - intros job' E. rewrite Hjob in E. injection E as <-. split; [reflexivity|].
    exists j. split; [apply lookup_insert_eq|]. auto.
  - intros E. congruence.
Qed.

(** X9: a stage executor changes no entry but the one of its job and
    keeps the set of job ids; of a stored job it keeps the file path
    and the original file name, it leaves the status at the stage's
    completion or at [error], never at a processing status, and it does
    not raise.  On an id that is not stored the exception of the missing
    key escapes the executor and nothing changes. *)
Theorem executors_touch_one_job `{C : Collaborators}
    (file_id file_path : str) (file_storage : gmap str Job) (w : World) :
  executor_frame file_id file_storage w compliance_complete
    (process_compliance_check file_id file_path file_storage w)
  /\ executor_frame file_id file_storage w correction_complete
       (process_document_correction file_id file_storage w).
Proof.
  assert (Hmissing : forall done, file_storage !! file_id = None ->
            executor_frame file_id file_storage w done
              (Some (KeyError file_id), file_storage, w)).
  { intros done Hnone. unfold executor_frame. simpl.
    split; [reflexivity|]. split; [auto|]. split; [|auto].
    intros job E. congruence. }
  split.
  - destruct (file_storage !! file_id) as [job|] eqn:Hjob.
    + destruct (process_compliance_check_cases file_id file_path file_storage w job Hjob)
        as [(state & w' & _ & ->)|(e & w' & _ & ->)];
        apply (executor_frame_insert _ _ _ _ job); auto.
    + unfold process_compliance_check. rewrite Hjob. now apply Hmissing.
  - destruct (file_storage !! file_id) as [job|] eqn:Hjob.
    + destruct (process_document_correction_cases file_id file_storage w job Hjob)
        as [(state & w' & _ & ->)|(e & w' & _ & ->)];
        apply (executor_frame_insert _ _ _ _ job); auto.
    + unfold process_document_correction. rewrite Hjob. now apply Hmissing.
Qed.

(** X10: with a text service whose answer depends on the prompt only,
    two Check stages that complete on the same file path store the same
    text, the same chunks and the same reports, whatever was sent to the
    text service in between. *)
Theorem check_is_repeatable `{C : Collaborators}
    (file_id file_id' file_path : str) (file_storage file_storage' : gmap str Job)
    (w w' w1 w1' : World) (r r' : option Escaped) (s1 s1' : gmap str Job)
    (j1 j1' : Job) :
  (forall a b prompt, llm_ainvoke a prompt = llm_ainvoke b prompt) ->
  process_compliance_check file_id file_path file_storage w = (r, s1, w1) ->
  s1 !! file_id = Some j1 -> job_status j1 = compliance_complete ->
  process_compliance_check file_id' file_path file_storage' w' = (r', s1', w1') ->
  s1' !! file_id' = Some j1' -> job_status j1' = compliance_complete ->
  job_original_text j1' = job_original_text j1
  /\ job_chunks j1' = job_chunks j1
  /\ job_compliance_reports j1' = job_compliance_reports j1.
Proof.
  intros Hdet Hrun Hj Hst Hrun' Hj' Hst'.
  destruct (check_complete_inv _ _ _ _ _ _ _ _ Hrun Hj Hst) as (job & state & _ & Hwf & ->).
  destruct (check_complete_inv _ _ _ _ _ _ _ _ Hrun' Hj' Hst')
    as (job' & state' & _ & Hwf' & ->).
  destruct (compliance_workflow_load _ _ _ _ Hwf) as (env1 & Hload & Htext & _).
  destruct (compliance_workflow_load _ _ _ _ Hwf') as (env1' & Hload' & Htext' & _).
  apply compliance_workflow_ok in Hwf as (Hchunks & Hres & _).
  apply compliance_workflow_ok in Hwf' as (Hchunks' & Hres' & _).
  assert (Et : st_original_text state' = st_original_text state).
  { rewrite Htext, Htext'.
    rewrite (load_document_node_world _ w' w), Hload in Hload'.
    injection Hload' as <-. reflexivity. }
  assert (Ec : st_chunks state' = st_chunks state) by congruence.
  simpl. split; [exact Et|]. split; [exact Ec|].
  rewrite Ec in Hres'. exact (loop_result_deterministic _ _ _ _ _ _ _ Hdet Hres' Hres).
Qed.

(** X11: a Check stage that completes has stored at least one chunk
    and one report and has called the text service at least once; on a
    document with no text it stores one empty chunk and sends one prompt,
    the analysis prompt of the empty string. *)
Theorem check_always_calls_text_service `{C : Collaborators}
    (file_id file_path : str) (file_storage : gmap str Job) (w w1 : World)
    (r : option Escaped) (s1 : gmap str Job) (j1 : Job) :
  process_compliance_check file_id file_path file_storage w = (r, s1, w1) ->
  s1 !! file_id = Some j1 -> job_status j1 = compliance_complete ->
  (1 <= length (job_chunks j1))%nat
  /\ length (job_compliance_reports j1) = length (job_chunks j1)
  /\ llm_calls w1 = llm_calls w ++ map check_prompt (job_chunks j1)
  /\ (job_original_text j1 = [] ->
      job_chunks j1 = [[]] /\ llm_calls w1 = llm_calls w ++ [check_prompt []]).
Proof.
  intros Hrun Hj Hst.
  destruct (check_complete_inv _ _ _ _ _ _ _ _ Hrun Hj Hst) as (job & state & _ & Hwf & ->).
  apply compliance_workflow_ok in Hwf as (Hchunks & [Hlen _] & Hcalls). simpl.
  split.
  { rewrite Hchunks. pose proof (paragraph_chunk_split_nonempty (st_original_text state) 2000).
    destruct (paragraph_chunk_split _ _); [congruence|simpl; lia]. }
  split; [exact Hlen|]. split; [exact Hcalls|].
  intros Hempty. rewrite Hempty in Hchunks. rewrite Hcalls, Hchunks. split; reflexivity.
Qed.

Lemma check_always_calls_text_service_witness :
  llm_calls demo_blank.2 = [check_prompt []].
Proof.
  apply (check_always_calls_text_service (C := stub_blank) demo_id demo_path
           (demo_store uploaded) empty_world demo_blank.2 demo_blank.1.1 demo_blank.1.2
           (default (demo_job uploaded) (demo_blank.1.2 !! demo_id)));
    vm_compute; reflexivity.
Defined.

Lemma check_is_repeatable_witness :
  job_compliance_reports (default (demo_job uploaded) (demo_rechecked.1.2 !! demo_id))
  = job_compliance_reports
      (default (demo_job uploaded)
         ((process_compliance_check (C := stub_short) demo_id demo_path
             (demo_store compliance_complete) demo_rechecked.2).1.2 !! demo_id)).
Proof.
  apply (check_is_repeatable (C := stub_short) demo_id demo_id demo_path
           (demo_store compliance_complete) demo_failed_store
           demo_rechecked.2 empty_world
           (process_compliance_check (C := stub_short) demo_id demo_path
              (demo_store compliance_complete) demo_rechecked.2).2
           demo_rechecked.2
           (process_compliance_check (C := stub_short) demo_id demo_path
              (demo_store compliance_complete) demo_rechecked.2).1.1
           demo_rechecked.1.1
           (process_compliance_check (C := stub_short) demo_id demo_path
              (demo_store compliance_complete) demo_rechecked.2).1.2
           demo_rechecked.1.2);
    vm_compute; reflexivity.
Defined.

(** ** The boundary after a failure, and uploads *)

Section AfterFailure.

Lemma refused_after_failure_insert file_id file_storage job message :
  refused_after_failure file_id
    (<[file_id := set_error message (set_status error job)]> file_storage)
    message (job_compliance_reports job).
Proof.
  unfold refused_after_failure, check_compliance, correct_document, download_file,
    get_status. rewrite !lookup_insert_eq. simpl. repeat split.
  unfold status_message, error_truthy. simpl. now destruct (truthy message).
Qed.




Lemma upload_file_accepted uuid4 write_upload filename file_storage response s0 :
  upload_file uuid4 write_upload filename file_storage = (inr response, s0) ->
  supported filename = true
  /\ response = mkFileUploadResponse uuid4
                  (lit "File " ++ filename ++ lit " uploaded successfully")
  /\ s0 = <[uuid4 := uploaded_job (upload_path uuid4 filename) filename]> file_storage.
Proof.
  unfold upload_file. destruct (supported filename); [|discriminate]. simpl.
  destruct (write_upload _); [discriminate|].
  intros E. injection E as <- <-. auto.
Qed.

End AfterFailure.

Lemma refused_after_failure_lookup (file_id : str) (s' : gmap str Job)
    (job : Job) (message : str) :
  s' !! file_id = Some (set_error message (set_status error job)) ->
  refused_after_failure file_id s' message (job_compliance_reports job).
Proof.
  intros Hj.
  unfold refused_after_failure, check_compliance, correct_document, download_file,
    get_status. rewrite !Hj. simpl. repeat split.
  unfold status_message, error_truthy. simpl. now destruct (truthy message).
Qed.

(** X12: when a stage raises [e] on a stored job, the executor records
    it in the job's entry, and on every store that holds that entry,
    that is until an executor changes it again, the boundary refuses
    both triggers and the download with HTTP 400 and schedules nothing;
    the status query answers [error] with the message
    ["Error: " + str(e)], or with no message when [str(e)] is empty. *)
Theorem failed_job_is_refused `{C : Collaborators}
    (file_id : str) (file_storage : gmap str Job) (job : Job) :
  file_storage !! file_id = Some job ->
  (forall file_path e w w1,
     ainvoke compliance_workflow (Some (ComplianceState_init file_path)) w = (inl e, w1) ->
     exists j1,
       process_compliance_check file_id file_path file_storage w
       = (None, <[file_id := j1]> file_storage, w1)
       /\ forall later : gmap str Job, later !! file_id = Some j1 ->
            refused_after_failure file_id later (exc_str e) (job_compliance_reports job))
  /\ (forall e w w1,
     ainvoke correction_workflow (job_state job) w = (inl e, w1) ->
     exists j1,
       process_document_correction file_id file_storage w
       = (None, <[file_id := j1]> file_storage, w1)
       /\ forall later : gmap str Job, later !! file_id = Some j1 ->
            refused_after_failure file_id later (exc_str e) (job_compliance_reports job)).
Proof.
  intros Hjob. split.
  - intros file_path e w w1 Hwf.
    destruct (process_compliance_check_cases file_id file_path file_storage w job Hjob)
      as [(state & w' & Hwf' & E)|(e' & w' & Hwf' & E)];
      rewrite Hwf in Hwf'; [discriminate|]. injection Hwf' as <- <-.
    eexists. split; [exact E|]. intros later. apply refused_after_failure_lookup.
  - intros e w w1 Hwf.
    destruct (process_document_correction_cases file_id file_storage w job Hjob)
      as [(state & w' & Hwf' & E)|(e' & w' & Hwf' & E)];
      rewrite Hwf in Hwf'; [discriminate|]. injection Hwf' as <- <-.
    eexists. split; [exact E|]. intros later. apply refused_after_failure_lookup.
Qed.

Lemma failed_job_is_refused_witness :
  exists j1,
    process_compliance_check (C := stub_failing) demo_id demo_path
      (demo_store uploaded) empty_world
    = (None, <[demo_id := j1]> (demo_store uploaded),
       mkWorld [check_prompt (lit "Para one.

Para two is.")] [])
    /\ forall later : gmap str Job, later !! demo_id = Some j1 ->
         refused_after_failure demo_id later (lit "quota exceeded") [].
Proof.
  apply (proj1 (failed_job_is_refused (C := stub_failing) demo_id (demo_store uploaded)
                  (demo_job uploaded) (lookup_singleton_eq _ _))
               demo_path (ExternalError (lit "quota exceeded")) empty_world).
  vm_compute. reflexivity.
Defined.

(** X13: an upload that is answered has stored a job in status
    [uploaded] under the identifier drawn, and changed no other job;
    on that store the status query says so, Check is accepted and
    schedules the Check stage on the path of the upload, and Correct is
    refused.  An upload that is not answered leaves the store as it
    was. *)
Theorem upload_then_boundary (uuid4 : str) (write_upload : str -> option Exception)
    (filename : str) (file_storage : gmap str Job) :
  (forall response s0,
     upload_file uuid4 write_upload filename file_storage = (inr response, s0) ->
     fu_file_id response = uuid4
     /\ (forall other, other <> uuid4 -> s0 !! other = file_storage !! other)
     /\ get_status uuid4 s0
        = inr (mkStatusResponse uuid4 uploaded
                 (Some (lit "File uploaded, ready for compliance checking")) [])
     /\ check_compliance uuid4 s0
        = (inr (mkComplianceResponse uuid4 []
                  (lit "Compliance checking started. Check status for progress.")),
           [ProcessComplianceCheck uuid4 (upload_path uuid4 filename)])
     /\ correct_document uuid4 s0
        = (inl (HTTPError 400
                  (lit "File must be compliance checked first. Current status: uploaded")),
           []))
  /\ (forall err s0,
        upload_file uuid4 write_upload filename file_storage = (inl err, s0) ->
        s0 = file_storage
        /\ (supported filename = false ->
            err = Refused (HTTPError 400 (lit "Only PDF and DOCX files are supported")))
        /\ (supported filename = true ->
            exists e, err = Unhandled e
                      /\ write_upload (upload_path uuid4 filename) = Some e)).
Proof.
  split.
  - intros response s0 Hup.
    apply upload_file_accepted in Hup as (_ & -> & ->).
    unfold get_status, check_compliance, correct_document.
    rewrite !lookup_insert_eq. simpl. repeat split.
    intros other Hne. now apply lookup_insert_ne.
  - intros err s0. unfold upload_file. destruct (supported filename); simpl.
    + destruct (write_upload _) as [e|] eqn:Hw; [|discriminate].
      intros E. injection E as <- <-.
      split; [reflexivity|]. split; [discriminate|]. intros _. eauto.
    + intros E. injection E as <- <-.
      split; [reflexivity|]. split; [reflexivity|discriminate].
Qed.



(** ** From the upload to the download *)

(** X15: for an upload that is answered, followed by a Check stage and
    a Correct stage that both complete, each trigger is accepted in its
    turn, the document is written at the output path derived from the
    path of the upload, and the download, when that file exists, serves
    it under the name [corrected_] + the original file name up to its
    first dot + [.docx]; when the file does not exist the download
    answers HTTP 404. *)
Theorem upload_to_download `{C : Collaborators}
    (uuid4 : str) (write_upload : str -> option Exception) (filename : str)
    (file_storage s0 s1 s2 : gmap str Job) (response : FileUploadResponse)
    (w w1 w2 : World) (r1 r2 : option Escaped) (j1 j2 : Job)
    (path_exists : str -> bool) :
  upload_file uuid4 write_upload filename file_storage = (inr response, s0) ->
  process_compliance_check uuid4 (upload_path uuid4 filename) s0 w = (r1, s1, w1) ->
  s1 !! uuid4 = Some j1 -> job_status j1 = compliance_complete ->
  process_document_correction uuid4 s1 w1 = (r2, s2, w2) ->
  s2 !! uuid4 = Some j2 -> job_status j2 = correction_complete ->
  let output_path := output_path_of (upload_path uuid4 filename) in
  snd (check_compliance uuid4 s0)
  = [ProcessComplianceCheck uuid4 (upload_path uuid4 filename)]
  /\ snd (correct_document uuid4 s1) = [ProcessDocumentCorrection uuid4]
  /\ job_output_path j2 = output_path
  /\ In output_path (map fst (documents w2))
  /\ download_file path_exists uuid4 s2
     = if path_exists output_path
       then inr (mkFileResponse output_path
                   (lit "corrected_" ++ take_until (chr ".") filename ++ lit ".docx")
                   (lit "application/vnd.openxmlformats-officedocument.wordprocessingml.document"))
       else inl (HTTPError 404 (lit "Corrected file not found")).
Proof.
  intros Hup Hcheck Hj1 Hst1 Hcorrect Hj2 Hst2 output_path.
  apply upload_file_accepted in Hup as (_ & _ & ->).
  destruct (check_complete_inv _ _ _ _ _ _ _ _ Hcheck Hj1 Hst1)
    as (job & state & Hjob & Hwf1 & ->).
  rewrite lookup_insert_eq in Hjob. injection Hjob as <-.
  destruct (compliance_workflow_load _ _ _ _ Hwf1) as (_ & _ & _ & Hpath).
  destruct (correction_complete_inv _ _ _ _ _ _ _ _ Hj1 Hcorrect Hj2 Hst2)
    as (state2 & Hwf2 & ->).
  simpl in Hwf2. apply correction_workflow_documents in Hwf2 as [Hout Hdocs].
  rewrite Hpath in Hout, Hdocs. fold output_path in Hout, Hdocs.
  split; [unfold check_compliance; now rewrite lookup_insert_eq|].
  split; [unfold correct_document; now rewrite Hj1|].
  split; [exact Hout|]. split.
  - rewrite Hdocs, map_app. apply List.in_or_app. right. now left.
  - unfold download_file. rewrite Hj2. simpl. rewrite Hout.
    now destruct (path_exists output_path).
Qed.

Lemma upload_to_download_witness :
  download_file (fun _ => true) (lit "7f3a") demo_upload_corrected.1.2
  = inr (mkFileResponse (lit "output/corrected_7f3a_report.docx")
           (lit "corrected_report.docx")
           (lit "application/vnd.openxmlformats-officedocument.wordprocessingml.document")).
Proof.
  refine (proj2 (proj2 (proj2 (proj2
    (upload_to_download (C := stub_short) (lit "7f3a") (fun _ => None)
       (lit "report.v2.pdf") ∅ demo_uploaded demo_upload_checked.1.2
       demo_upload_corrected.1.2
       (mkFileUploadResponse (lit "7f3a")
          (lit "File report.v2.pdf uploaded successfully"))
       empty_world demo_upload_checked.2 demo_upload_corrected.2
       demo_upload_checked.1.1 demo_upload_corrected.1.1
       (default (demo_job uploaded) (demo_upload_checked.1.2 !! lit "7f3a"))
       (default (demo_job uploaded) (demo_upload_corrected.1.2 !! lit "7f3a"))
       (fun _ => true) _ _ _ _ _ _ _)))));
    vm_compute; reflexivity.
Defined.

(** ** The chunker packs greedily *)

Section Greedy.

Lemma greedy_snoc_group chunk_size groups g s :
  g <> [] -> greedy chunk_size (groups ++ [g]) ->
  chunk_size < len (buffer_of g) + len (s ++ sep) ->
  greedy chunk_size ((groups ++ [g]) ++ [[s]]).
Proof.
  intros Hg. induction groups as [|g1 groups IH]; intros Hgr Hfull.
  - simpl. auto.
  - destruct Hgr as [H1 Hgr]. specialize (IH Hgr Hfull).
    split; [|exact IH].
    destruct groups as [|g2 groups]; simpl in *; exact H1.
Qed.

Lemma greedy_grow_last chunk_size groups g s :
  g <> [] -> greedy chunk_size (groups ++ [g]) ->
  greedy chunk_size (groups ++ [g ++ [s]]).
Proof.
  intros Hg. induction groups as [|g1 groups IH]; intros Hgr.
  - simpl. auto.
  - destruct Hgr as [H1 Hgr]. specialize (IH Hgr). split; [|exact IH].
    destruct groups as [|g2 groups]; simpl in *; [|exact H1].
    destruct g; [congruence|exact H1].
Qed.

Lemma packed_step chunk_size pre p st :
  packed chunk_size pre st -> packed chunk_size (pre ++ [p]) (step chunk_size st p).
Proof.
  intros (groups & g & Hc & Hch & Hb & Hnil & Hgr).
  destruct st as [chunks cur]. simpl in Hch, Hb. subst chunks cur.
  unfold step, packed. rewrite map_app. simpl map.
  destruct (len (buffer_of g) + len (strip p ++ sep) >? chunk_size) eqn:Hgt.
  - destruct (truthy (buffer_of g)) eqn:Ht.
    + apply truthy_buffer_of in Ht.
      exists (groups ++ [g]), [strip p]. simpl. split; [|split; [|split; [|split]]].
      * rewrite Hc, concat_app. simpl. now rewrite app_nil_r, <- app_assoc.
      * now rewrite map_app.
      * now rewrite buffer_of_single.
      * discriminate.
      * apply greedy_snoc_group; [assumption| |].
        -- destruct g; [congruence|exact Hgr].
        -- rewrite Z.gtb_ltb in Hgt. now apply Z.ltb_lt in Hgt.
    + apply buffer_of_falsy in Ht. subst g. rewrite (Hnil eq_refl) in *.
      exists [], [strip p]. simpl in *.
      split; [now rewrite Hc|]. split; [reflexivity|].
      split; [now rewrite buffer_of_single|]. split; [discriminate|auto].
  - exists groups, (g ++ [strip p]). simpl. split; [|split; [|split; [|split]]].
    + rewrite Hc. now rewrite app_assoc.
    + reflexivity.
    + now rewrite buffer_of_snoc.
    + intros E. now apply app_eq_nil in E as [_ ?].
    + destruct g as [|s0 g].
      * rewrite (Hnil eq_refl). simpl. auto.
      * change (with_open groups ((s0 :: g) ++ [strip p]))
          with (groups ++ [(s0 :: g) ++ [strip p]]).
        apply greedy_grow_last; [discriminate|exact Hgr].
Qed.

End Greedy.

(** X16: the chunker packs greedily: the chunks are the trimmed
    paragraphs grouped in order, and a group is closed only when the
    next paragraph, with its delimiter, did not fit the buffer: for two
    consecutive groups, the buffer of the first and the first paragraph
    of the second are together longer than [chunk_size]. *)
Theorem chunker_packs_greedily (text : str) (chunk_size : Z) :
  exists groups : list (list str),
    concat groups = map strip (split text)
    /\ paragraph_chunk_split text chunk_size = map chunk_of groups
    /\ greedy chunk_size groups.
Proof.
  unfold paragraph_chunk_split.
  pose proof (fold_left_prefix_ind (step chunk_size) (packed chunk_size) ([], [])) as H.
  specialize (H ltac:(exists [], []; simpl; auto)
                (fun pre x a Ha => packed_step chunk_size pre x a Ha) (split text)).
  destruct (fold_left (step chunk_size) (split text) ([], [])) as [chunks cur].
  destruct H as (groups & g & Hc & Hch & Hb & Hnil & Hgr).
  simpl in Hch, Hb. subst chunks cur.
  destruct (truthy (buffer_of g)) eqn:Ht.
  - apply truthy_buffer_of in Ht. exists (groups ++ [g]). split; [|split].
    + rewrite Hc, concat_app. simpl. now rewrite app_nil_r.
    + now rewrite map_app.
    + destruct g; [congruence|exact Hgr].
  - apply buffer_of_falsy in Ht. subst g. rewrite (Hnil eq_refl) in *.
    simpl in Hc. apply map_eq_nil in Hc. now apply split_aux_nonempty in Hc.
Qed.
